(** * ScrabbleTimer: the two-player clock of [src/App.tsx]

    A shallow embedding of the React component [App] and a verification of
    its turn switching, ticking, persistence and wake-lock handling.

    The component keeps three state cells ([player1Time], [player2Time],
    [activePlayer]) and one ref ([wakeLockRef]); four effects load the
    saved record, save it, arm the one-second interval and drive the screen
    wake lock.  The embedding keeps this shape:

    - the JavaScript values that can flow from [JSON.parse] into the state
      cells are an inductive type [JSValue];
    - [localStorage] is a finite map from keys to strings;
    - the handlers and effects are functions on a record [World] that holds
      the state cells, the storage, the timers armed and not yet cleared,
      the visibility listeners registered and not yet removed, and the
      wake-lock bookkeeping; an effect only arms or registers, and it is
      its cleanup that clears or removes;
    - the events of the page (taps, the interval firing, the platform
      settling a wake-lock request, ...) are a type [Event] and [step]
      runs the handler of an event followed by the effects of the render
      it causes.

    Numbers.  A JavaScript number is a binary64 float.  The embedding uses
    exact decimal fractions [mant / 10^dexp] instead: every JSON numeric
    literal denotes one, and on the safe integers, those of magnitude
    below 2^53 ([isSafeInteger]), the additions, comparisons, remainders
    and printing of the program are exact in binary64 and agree with it.
    Rounding, overflow to [Infinity] and the exponent notation that
    [Number.prototype.toString] uses from 1e21 on are not modelled, so a
    statement below that depends on the result of an arithmetic
    operation is made for safe integers only.

    Strings.  A JavaScript string is a sequence of UTF-16 code units; here
    it is a [string] of bytes, read as UTF-8.  The two agree on ASCII, which
    covers every key and literal of the program.

    Console output is left out.

    [src/index.js] is the same component compiled to plain JavaScript and
    mounted under [React.StrictMode]; the semantics below is that of a
    production build, where [StrictMode] does not re-run effects. *)

From Stdlib Require Import ZArith NArith QArith Qround Qabs Bool List Ascii String Lia.
From Stdlib Require Import DecimalString DecimalN Lqa.
From stdpp Require Import gmap strings.
Import ListNotations.

Set Warnings "-register-all".
Local Open Scope Z_scope.

(** ** Characters used by the JSON grammar *)

Definition dquote : ascii := "034"%char.
Definition backslash : ascii := "092"%char.
Definition str1 (c : ascii) : string := String c EmptyString.

(** ** JavaScript values *)

(** An exact decimal fraction [mant / 10^dexp].  The canonical form has
    [dexp = 0] or [mant] not divisible by ten. *)
Record number := Num { mant : Z; dexp : nat }.

Definition int_number (z : Z) : number := Num z 0.

(** The values [JSON.parse] can build.  [undefined] is not among them: a
    missing property is the [None] of [js_get]. *)
Inductive JSValue :=
| JNull
| JBool (b : bool)
| JNumber (n : number)
| JString (s : string)
| JArray (elems : list JSValue)
| JObject (props : list (string * JSValue)).

Definition JInt (z : Z) : JSValue := JNumber (int_number z).

Definition number_eqb (a b : number) : bool :=
  (mant a =? mant b) && Nat.eqb (dexp a) (dexp b).

(** Structural comparison of two values.  React compares state and effect
    dependencies with [Object.is]; on primitives that is equality of
    values, and the only arrays and objects a state cell ever holds are
    the ones [JSON.parse] built at mount, compared with themselves or with
    a primitive. *)
Fixpoint same_value (a b : JSValue) {struct a} : bool :=
  match a, b with
  | JNull, JNull => true
  | JBool x, JBool y => Bool.eqb x y
  | JNumber x, JNumber y => number_eqb x y
  | JString x, JString y => String.eqb x y
  | JArray xs, JArray ys =>
      (fix go (l : list JSValue) (r : list JSValue) {struct l} : bool :=
         match l, r with
         | [], [] => true
         | x :: l', y :: r' => same_value x y && go l' r'
         | _, _ => false
         end) xs ys
  | JObject xs, JObject ys =>
      (fix go (l : list (string * JSValue)) (r : list (string * JSValue))
           {struct l} : bool :=
         match l, r with
         | [], [] => true
         | (k, x) :: l', (k', y) :: r' =>
             String.eqb k k' && same_value x y && go l' r'
         | _, _ => false
         end) xs ys
  | _, _ => false
  end.

(** ToBoolean. *)
Definition truthy (v : JSValue) : bool :=
  match v with
  | JNull => false
  | JBool b => b
  | JNumber n => negb (mant n =? 0)
  | JString s => negb (String.eqb s EmptyString)
  | JArray _ | JObject _ => true
  end.

(** ** Printing numbers *)

Definition dec_string (n : N) : string :=
  NilEmpty.string_of_uint (N.to_uint n).

Fixpoint zeros (k : nat) : string :=
  match k with
  | O => EmptyString
  | S k' => String "0" (zeros k')
  end.

Definition pad_left (width : nat) (s : string) : string :=
  zeros (width - String.length s) +:+ s.

(** Number::toString, in positional notation, which is what the code
    prints for magnitudes from 1e-6 up to 1e21. *)
Definition number_to_string (n : number) : string :=
  let a := Z.abs_N (mant n) in
  let sign := if mant n <? 0 then "-"%string else EmptyString in
  match dexp n with
  | O => sign +:+ dec_string a
  | S _ =>
      let p := (10 ^ N.of_nat (dexp n))%N in
      sign +:+ dec_string (a / p)%N +:+ "." +:+
        pad_left (dexp n) (dec_string (a mod p)%N)
  end.

(** ToString, as the [+] operator applies it to an operand that is not a
    number: the elements of an array are joined with commas, [null]
    elements printing as nothing. *)
Fixpoint js_to_string (v : JSValue) : string :=
  match v with
  | JNull => "null"
  | JBool true => "true"
  | JBool false => "false"
  | JNumber n => number_to_string n
  | JString s => s
  | JArray xs =>
      (fix join (l : list JSValue) : string :=
         match l with
         | [] => EmptyString
         | [x] => match x with JNull => EmptyString | _ => js_to_string x end
         | x :: l' =>
             (match x with JNull => EmptyString | _ => js_to_string x end)
               +:+ "," +:+ join l'
         end) xs
  | JObject _ => "[object Object]"
  end.

(** [prev + 1], the updater of the interval callback.  A number is
    incremented; [null] and booleans convert to a number first; a string,
    and an array or object through its string form, gets the character
    [1] appended.  The sum is the exact one: it is the sum of the code
    on the safe integers, while binary64 rounds it elsewhere (from 2^53
    on [prev + 1] can be [prev]). *)
Definition js_plus_one (prev : JSValue) : JSValue :=
  match prev with
  | JNumber n => JNumber (Num (mant n + 10 ^ Z.of_nat (dexp n)) (dexp n))
  | JNull => JInt 1
  | JBool b => JInt (if b then 2 else 1)
  | JString s => JString (s +:+ "1")
  | JArray _ | JObject _ => JString (js_to_string prev +:+ "1")
  end.

(** ** JSON.parse *)

(** The result of a JavaScript computation that can throw. *)
Inductive JSError := SyntaxError | TypeError.

Inductive Completion (A : Type) :=
| Normal (a : A)
| Throw (e : JSError).
Arguments Normal {A} a.
Arguments Throw {A} e.

Definition is_ws (c : ascii) : bool :=
  Ascii.eqb c " " || Ascii.eqb c "009" || Ascii.eqb c "010" || Ascii.eqb c "013".

Fixpoint skip_ws (s : string) : string :=
  match s with
  | String c r => if is_ws c then skip_ws r else s
  | EmptyString => EmptyString
  end.

Definition is_digit (c : ascii) : bool :=
  let n := nat_of_ascii c in Nat.leb 48 n && Nat.leb n 57.

(** The longest prefix of digits, and what follows it. *)
Fixpoint span_digits (s : string) : string * string :=
  match s with
  | String c r =>
      if is_digit c
      then let '(ds, rest) := span_digits r in (String c ds, rest)
      else (EmptyString, s)
  | EmptyString => (EmptyString, EmptyString)
  end.

Definition digits_value (ds : string) : N :=
  match NilEmpty.uint_of_string ds with
  | Some u => N.of_uint u
  | None => 0%N
  end.

(** [m / 10^d] in canonical form: trailing zeros of the fraction go. *)
Fixpoint strip_zeros (d : nat) (m : Z) : number :=
  match d with
  | O => Num m 0
  | S d' => if m mod 10 =? 0 then strip_zeros d' (m / 10) else Num m d
  end.

(** The number [± m * 10^e], exactly; [JSON.parse] rounds it to
    binary64, which changes nothing on the safe integers. *)
Definition make_number (neg : bool) (m : N) (e : Z) : number :=
  let z := if neg then - Z.of_N m else Z.of_N m in
  if 0 <=? e then Num (z * 10 ^ e) 0 else strip_zeros (Z.to_nat (- e)) z.

(** The optional fraction of a numeric literal: its digits and the rest,
    or [None] when a point is not followed by a digit. *)
Definition parse_fraction (s : string) : option (string * string) :=
  match s with
  | String "." r =>
      match span_digits r with
      | (EmptyString, _) => None
      | (fd, rest) => Some (fd, rest)
      end
  | _ => Some (EmptyString, s)
  end.

(** The optional exponent of a numeric literal. *)
Definition parse_exponent (s : string) : option (Z * string) :=
  let digits (neg : bool) (r : string) :=
    match span_digits r with
    | (EmptyString, _) => None
    | (ed, rest) =>
        let e := Z.of_N (digits_value ed) in
        Some (if neg then - e else e, rest)
    end in
  match s with
  | String c r =>
      if Ascii.eqb c "e" || Ascii.eqb c "E" then
        match r with
        | String "-" r' => digits true r'
        | String "+" r' => digits false r'
        | _ => digits false r
        end
      else Some (0, s)
  | EmptyString => Some (0, s)
  end.

(** A JSON numeric literal after its sign: the integer part, a single
    zero or digits that start with a non-zero one; an optional fraction,
    a point and one or more digits; an optional exponent, [e] or [E], an
    optional sign and one or more digits. *)
Definition parse_unsigned (neg : bool) (s : string) : option (number * string) :=
  match s with
  | String c r =>
      if is_digit c then
        let '(ip, s2) :=
          if Ascii.eqb c "0" then (str1 c, r) else span_digits s in
        '(fd, s3) ← parse_fraction s2;
        '(e, s4) ← parse_exponent s3;
        Some (make_number neg (digits_value (ip +:+ fd))
                (e - Z.of_nat (String.length fd)), s4)
      else None
  | EmptyString => None
  end.

(** A numeric literal, with its optional minus sign. *)
Definition parse_number (s : string) : option (number * string) :=
  match s with
  | String c r =>
      if Ascii.eqb c "-" then parse_unsigned true r else parse_unsigned false s
  | EmptyString => None
  end.

Definition hex_value (c : ascii) : option N :=
  let n := N_of_ascii c in
  if (48 <=? n)%N && (n <=? 57)%N then Some (n - 48)%N
  else if (65 <=? n)%N && (n <=? 70)%N then Some (n - 55)%N
  else if (97 <=? n)%N && (n <=? 102)%N then Some (n - 87)%N
  else None.

(** The bytes of a code point below 2^16 in UTF-8. *)
Definition utf8 (cp : N) : string :=
  if (cp <? 128)%N then str1 (ascii_of_N cp)
  else if (cp <? 2048)%N then
    String (ascii_of_N (192 + cp / 64))
      (str1 (ascii_of_N (128 + cp mod 64)))
  else
    String (ascii_of_N (224 + cp / 4096))
      (String (ascii_of_N (128 + (cp / 64) mod 64))
         (str1 (ascii_of_N (128 + cp mod 64)))).

Definition unescape (c : ascii) : option ascii :=
  if Ascii.eqb c dquote then Some dquote
  else if Ascii.eqb c backslash then Some backslash
  else if Ascii.eqb c "/" then Some "/"%char
  else if Ascii.eqb c "b" then Some "008"%char
  else if Ascii.eqb c "f" then Some "012"%char
  else if Ascii.eqb c "n" then Some "010"%char
  else if Ascii.eqb c "r" then Some "013"%char
  else if Ascii.eqb c "t" then Some "009"%char
  else None.

(** The characters of a string literal after its opening quote, up to and
    including the closing one. *)
Fixpoint parse_string_body (s : string) : option (string * string) :=
  match s with
  | EmptyString => None
  | String c r =>
      if Ascii.eqb c dquote then Some (EmptyString, r)
      else if Ascii.eqb c backslash then
        match r with
        | String e r' =>
            if Ascii.eqb e "u" then
              match r' with
              | String h1 (String h2 (String h3 (String h4 r''))) =>
                  a ← hex_value h1; b ← hex_value h2;
                  c' ← hex_value h3; d ← hex_value h4;
                  '(str, rest) ← parse_string_body r'';
                  Some (utf8 (((a * 16 + b) * 16 + c') * 16 + d)%N +:+ str, rest)
              | _ => None
              end
            else
              u ← unescape e;
              '(str, rest) ← parse_string_body r';
              Some (String u str, rest)
        | EmptyString => None
        end
      else if Nat.ltb (nat_of_ascii c) 32 then None
      else
        '(str, rest) ← parse_string_body r;
        Some (String c str, rest)
  end.

Fixpoint strip_prefix (p s : string) : option string :=
  match p, s with
  | EmptyString, _ => Some s
  | String a p', String b s' => if Ascii.eqb a b then strip_prefix p' s' else None
  | String _ _, EmptyString => None
  end.

(** An array index: the canonical decimal form of an integer below
    2^32 - 1.  An object enumerates such keys first, in ascending order. *)
Definition array_index (k : string) : option N :=
  match span_digits k with
  | (String c r, EmptyString) =>
      if Ascii.eqb c "0" && negb (String.eqb r EmptyString) then None
      else let n := digits_value k in
           if (n <? 4294967295)%N then Some n else None
  | _ => None
  end.

(** CreateDataProperty on an object kept in enumeration order. *)
Fixpoint obj_set (k : string) (v : JSValue) (props : list (string * JSValue))
  : list (string * JSValue) :=
  match props with
  | [] => [(k, v)]
  | (k', v') :: rest =>
      if String.eqb k k' then (k, v) :: rest
      else match array_index k, array_index k' with
           | Some i, Some j =>
               if (i <? j)%N then (k, v) :: props
               else (k', v') :: obj_set k v rest
           | Some _, None => (k, v) :: props
           | None, _ => (k', v') :: obj_set k v rest
           end
  end.

(** The three productions of the grammar, each over the parsers it
    calls: a value; the elements of an array after its opening bracket;
    the members of an object after its opening brace.  [acc] holds what
    the array or object has collected so far. *)
Definition json_value
    (members : string -> list (string * JSValue) -> option (JSValue * string))
    (elements : string -> list JSValue -> option (JSValue * string))
    (s : string) : option (JSValue * string) :=
  match skip_ws s with
  | EmptyString => None
  | String c r =>
      if Ascii.eqb c "{" then
        match skip_ws r with
        | String "}" r' => Some (JObject [], r')
        | _ => members r []
        end
      else if Ascii.eqb c "[" then
        match skip_ws r with
        | String "]" r' => Some (JArray [], r')
        | _ => elements r []
        end
      else if Ascii.eqb c dquote then
        '(str, rest) ← parse_string_body r; Some (JString str, rest)
      else if Ascii.eqb c "t" then
        rest ← strip_prefix "rue" r; Some (JBool true, rest)
      else if Ascii.eqb c "f" then
        rest ← strip_prefix "alse" r; Some (JBool false, rest)
      else if Ascii.eqb c "n" then
        rest ← strip_prefix "ull" r; Some (JNull, rest)
      else
        '(n, rest) ← parse_number (String c r); Some (JNumber n, rest)
  end.

Definition json_elements
    (value : string -> option (JSValue * string))
    (elements : string -> list JSValue -> option (JSValue * string))
    (s : string) (acc : list JSValue) : option (JSValue * string) :=
  '(v, r) ← value s;
  match skip_ws r with
  | String "," r' => elements r' (acc ++ [v])
  | String "]" r' => Some (JArray (acc ++ [v]), r')
  | _ => None
  end.

Definition json_members
    (value : string -> option (JSValue * string))
    (members : string -> list (string * JSValue) -> option (JSValue * string))
    (s : string) (acc : list (string * JSValue)) : option (JSValue * string) :=
  match skip_ws s with
  | String c r =>
      if Ascii.eqb c dquote then
        '(k, r1) ← parse_string_body r;
        match skip_ws r1 with
        | String ":" r2 =>
            '(v, r3) ← value r2;
            match skip_ws r3 with
            | String "," r4 => members r4 (obj_set k v acc)
            | String "}" r4 => Some (JObject (obj_set k v acc), r4)
            | _ => None
            end
        | _ => None
        end
      else None
  | EmptyString => None
  end.

(** The recursive parsers.  [fuel] bounds the depth of the recursion;
    two levels consume at least one character, so [JSON_parse] passes
    twice the length of the text ([parse_fuel_enough] shows that more
    fuel changes nothing). *)
Fixpoint parse_value (fuel : nat) (s : string) {struct fuel}
  : option (JSValue * string) :=
  match fuel with
  | O => None
  | S f => json_value (parse_members f) (parse_elements f) s
  end
with parse_elements (fuel : nat) (s : string) (acc : list JSValue)
       {struct fuel} : option (JSValue * string) :=
  match fuel with
  | O => None
  | S f => json_elements (parse_value f) (parse_elements f) s acc
  end
with parse_members (fuel : nat) (s : string) (acc : list (string * JSValue))
       {struct fuel} : option (JSValue * string) :=
  match fuel with
  | O => None
  | S f => json_members (parse_value f) (parse_members f) s acc
  end.

(** [JSON.parse(text)]: one value, surrounded by white space only; any
    other text throws a [SyntaxError]. *)
Definition JSON_parse (text : string) : Completion JSValue :=
  match parse_value (2 * String.length text + 2) text with
  | Some (v, rest) =>
      match skip_ws rest with
      | EmptyString => Normal v
      | String _ _ => Throw SyntaxError
      end
  | None => Throw SyntaxError
  end.

(** ** JSON.stringify *)

Definition hex_digit (n : N) : ascii :=
  if (n <? 10)%N then ascii_of_N (48 + n) else ascii_of_N (87 + n).

(** QuoteJSONString: the escapes of one character. *)
Definition escape_char (c : ascii) : string :=
  if Ascii.eqb c dquote then String backslash (str1 dquote)
  else if Ascii.eqb c backslash then String backslash (str1 backslash)
  else if Ascii.eqb c "008" then String backslash "b"
  else if Ascii.eqb c "012" then String backslash "f"
  else if Ascii.eqb c "010" then String backslash "n"
  else if Ascii.eqb c "013" then String backslash "r"
  else if Ascii.eqb c "009" then String backslash "t"
  else if (N_of_ascii c <? 32)%N then
    String backslash
      (String "u" (String "0" (String "0"
         (String (hex_digit (N_of_ascii c / 16))
            (str1 (hex_digit (N_of_ascii c mod 16)))))))
  else str1 c.

Fixpoint escape_string (s : string) : string :=
  match s with
  | EmptyString => EmptyString
  | String c r => escape_char c +:+ escape_string r
  end.

Definition quote_json (s : string) : string :=
  String dquote (escape_string s +:+ str1 dquote).

Fixpoint JSON_stringify (v : JSValue) : string :=
  match v with
  | JNull => "null"
  | JBool true => "true"
  | JBool false => "false"
  | JNumber n => number_to_string n
  | JString s => quote_json s
  | JArray xs =>
      "[" +:+
      (fix elems (l : list JSValue) : string :=
         match l with
         | [] => EmptyString
         | [x] => JSON_stringify x
         | x :: l' => JSON_stringify x +:+ "," +:+ elems l'
         end) xs +:+ "]"
  | JObject ps =>
      "{" +:+
      (fix members (l : list (string * JSValue)) : string :=
         match l with
         | [] => EmptyString
         | [(k, x)] => quote_json k +:+ ":" +:+ JSON_stringify x
         | (k, x) :: l' =>
             quote_json k +:+ ":" +:+ JSON_stringify x +:+ "," +:+ members l'
         end) ps +:+ "}"
  end.

(** ** The component state *)

Inductive Player := player1 | player2.

Definition Player_eqb (a b : Player) : bool :=
  match a, b with
  | player1, player1 | player2, player2 => true
  | _, _ => false
  end.

#[global] Instance Player_eq_dec : EqDecision Player.
Proof. solve_decision. Defined.

Definition activePlayer_eqb (a b : option Player) : bool :=
  match a, b with
  | Some x, Some y => Player_eqb x y
  | None, None => true
  | _, _ => false
  end.

(** The three [useState] cells.  [useState<number>] is a compile-time
    annotation: [JSON.parse] returns [any], so at run time a time cell
    holds whatever the load effect put there. *)
Record TimerState := mkState {
  player1Time : JSValue;
  player2Time : JSValue;
  activePlayer : option Player
}.

Definition initialState : TimerState := mkState (JInt 0) (JInt 0) None.

Definition setPlayer1Time (f : JSValue -> JSValue) (s : TimerState) : TimerState :=
  mkState (f (player1Time s)) (player2Time s) (activePlayer s).

Definition setPlayer2Time (f : JSValue -> JSValue) (s : TimerState) : TimerState :=
  mkState (player1Time s) (f (player2Time s)) (activePlayer s).

Definition setActivePlayer (a : option Player) (s : TimerState) : TimerState :=
  mkState (player1Time s) (player2Time s) a.

(** ** The page: state, storage, intervals and wake lock *)

Definition storageKey : string := "scrabbleTimerState".

(** Everything the component reads or writes.

    - [intervals] are the timers that [setInterval] armed and
      [clearInterval] has not cleared, each with the [activePlayer] its
      callback captured, in the order they were armed;
    - [visibilityListeners] are the [visibilitychange] listeners that
      [addEventListener] registered and [removeEventListener] has not
      removed, each with the [activePlayer] it captured, in the order
      they were registered;
    - a wake-lock sentinel is named by a number; [live] holds the
      sentinels whose [released] flag is still false, [created] counts
      the sentinels handed out so far, and [pending] counts the calls of
      [navigator.wakeLock.request] that have not settled yet, each with
      the rest of [requestWakeLock] waiting behind its [await]. *)
Record World := mkWorld {
  state : TimerState;
  localStorage : gmap string string;
  intervals : list Player;
  wakeLockSupported : bool;
  visibilityListeners : list (option Player);
  wakeLockRef : option nat;
  live : gset nat;
  created : nat;
  pending : nat
}.

Definition with_state (s : TimerState) (w : World) : World :=
  mkWorld s (localStorage w) (intervals w) (wakeLockSupported w)
    (visibilityListeners w) (wakeLockRef w) (live w) (created w) (pending w).

Definition with_storage (ls : gmap string string) (w : World) : World :=
  mkWorld (state w) ls (intervals w) (wakeLockSupported w)
    (visibilityListeners w) (wakeLockRef w) (live w) (created w) (pending w).

Definition with_intervals (i : list Player) (w : World) : World :=
  mkWorld (state w) (localStorage w) i (wakeLockSupported w)
    (visibilityListeners w) (wakeLockRef w) (live w) (created w) (pending w).

Definition with_listeners (l : list (option Player)) (w : World) : World :=
  mkWorld (state w) (localStorage w) (intervals w) (wakeLockSupported w)
    l (wakeLockRef w) (live w) (created w) (pending w).

(** ** The load effect (App.tsx, lines 50-66) *)

(** [const { p1Time, p2Time } = v].  Destructuring [null] throws a
    [TypeError]; on an object each name is looked up among its
    properties; an array, string, number or boolean has neither name, own
    or inherited, and yields [undefined] twice. *)
Definition js_get (k : string) (props : list (string * JSValue)) : option JSValue :=
  snd <$> List.find (fun kv => String.eqb k (fst kv)) props.

Definition destructure_times (v : JSValue)
  : Completion (option JSValue * option JSValue) :=
  match v with
  | JNull => Throw TypeError
  | JObject props => Normal (js_get "p1Time" props, js_get "p2Time" props)
  | _ => Normal (None, None)
  end.

(** [x || 0], with [None] for [undefined]. *)
Definition or_zero (x : option JSValue) : JSValue :=
  match x with
  | Some v => if truthy v then v else JInt 0
  | None => JInt 0
  end.

(** The body of the [try] block: the two values it passes to the
    setters, [None] when it finds nothing to set, or the exception it
    throws.  An empty string is as falsy as [null]. *)
Definition load_try (ls : gmap string string)
  : Completion (option (JSValue * JSValue)) :=
  match ls !! storageKey with
  | Some savedState =>
      if negb (String.eqb savedState EmptyString) then
        match JSON_parse savedState with
        | Normal v =>
            match destructure_times v with
            | Normal (p1Time, p2Time) =>
                Normal (Some (or_zero p1Time, or_zero p2Time))
            | Throw e => Throw e
            end
        | Throw e => Throw e
        end
      else Normal None
  | None => Normal None
  end.

(** The whole effect: [try], the [catch] that removes the record, and the
    final [setActivePlayer(null)].  It returns the state the queued
    updates lead to and the storage it leaves. *)
Definition loadEffect (s : TimerState) (ls : gmap string string)
  : TimerState * gmap string string :=
  match load_try ls with
  | Normal (Some (p1, p2)) =>
      (setActivePlayer None
         (setPlayer2Time (fun _ => p2) (setPlayer1Time (fun _ => p1) s)), ls)
  | Normal None => (setActivePlayer None s, ls)
  | Throw _ => (setActivePlayer None s, delete storageKey ls)
  end.

(** ** The save effect (lines 69-76) *)

Definition stateToSave (p1 p2 : JSValue) : JSValue :=
  JObject [("p1Time"%string, p1); ("p2Time"%string, p2)].

Definition saveEffect (p1 p2 : JSValue) (ls : gmap string string)
  : gmap string string :=
  <[storageKey := JSON_stringify (stateToSave p1 p2)]> ls.

(** ** The tick effect (lines 79-97) *)

(** The callback of [setInterval], closed over the [activePlayer] of the
    render that armed it. *)
Definition intervalCallback (captured : Player) (s : TimerState) : TimerState :=
  match captured with
  | player1 => setPlayer1Time js_plus_one s
  | player2 => setPlayer2Time js_plus_one s
  end.

(** The effect body for the render whose state is [state w]: while a
    player is active one more timer is armed; nothing is cleared here. *)
Definition tickEffect (w : World) : World :=
  match activePlayer (state w) with
  | Some captured => with_intervals (intervals w ++ [captured]) w
  | None => w
  end.

(** Removing the first of the entries equal to [x]: [clearInterval] and
    [removeEventListener] take away the one timer or listener they are
    given, and entries that captured the same [activePlayer] behave
    alike. *)
Fixpoint remove_first {A} `{EqDecision A} (x : A) (l : list A) : list A :=
  match l with
  | [] => []
  | y :: l' => if decide (x = y) then l' else y :: remove_first x l'
  end.

(** The cleanup that the effect of a render with [activePlayer = a]
    returned: its [interval] is set exactly when [a] was a player, and
    then [clearInterval] clears that timer. *)
Definition tickCleanup (a : option Player) (w : World) : World :=
  match a with
  | Some captured => with_intervals (remove_first captured (intervals w)) w
  | None => w
  end.

(** ** The wake-lock effect (lines 100-150) *)

(** [wakeLockRef.current && !wakeLockRef.current.released]. *)
Definition holdsLock (w : World) : bool :=
  match wakeLockRef w with
  | Some id => bool_decide (id ∈ live w)
  | None => false
  end.

(** [requestWakeLock], up to its [await]: when the ref holds no
    unreleased sentinel a request goes to the platform and the rest of
    the function waits for it; otherwise nothing happens. *)
Definition requestWakeLock (w : World) : World :=
  if holdsLock w then w
  else mkWorld (state w) (localStorage w) (intervals w) (wakeLockSupported w)
         (visibilityListeners w) (wakeLockRef w) (live w) (created w)
         (S (pending w)).

(** The rest of [requestWakeLock] once the platform grants the request:
    a fresh sentinel is stored in the ref and gets its [release]
    listener. *)
Definition requestGranted (w : World) : World :=
  mkWorld (state w) (localStorage w) (intervals w) (wakeLockSupported w)
    (visibilityListeners w) (Some (created w)) ({[created w]} ∪ live w)
    (S (created w)) (pending w - 1)%nat.

(** ... and once it rejects it: the [catch] only logs. *)
Definition requestDenied (w : World) : World :=
  mkWorld (state w) (localStorage w) (intervals w) (wakeLockSupported w)
    (visibilityListeners w) (wakeLockRef w) (live w) (created w)
    (pending w - 1)%nat.

(** A sentinel is released, by [release()] or by the platform: its flag
    is set and its [release] listener clears the ref, whichever sentinel
    the ref holds. *)
Definition sentinelReleased (id : nat) (w : World) : World :=
  mkWorld (state w) (localStorage w) (intervals w) (wakeLockSupported w)
    (visibilityListeners w) None (live w ∖ {[id]}) (created w) (pending w).

(** [releaseWakeLock]: [release()] sets the flag and fires the listener
    before it returns, and the assignment after the [await] clears the
    ref once more. *)
Definition releaseWakeLock (w : World) : World :=
  match wakeLockRef w with
  | Some id => if bool_decide (id ∈ live w) then sentinelReleased id w else w
  | None => w
  end.

(** The live sentinels the controller holds: the one in the ref, if it
    is not released. *)
Definition heldSentinels (w : World) : list nat :=
  match wakeLockRef w with
  | Some id => if bool_decide (id ∈ live w) then [id] else []
  | None => []
  end.

Definition handleVisibilityChange (captured : option Player) (visible : bool)
    (w : World) : World :=
  match captured with
  | Some _ => if visible then requestWakeLock w else w
  | None => w
  end.

(** The effect body for the render whose state is [state w]. *)
Definition wakeLockEffect (w : World) : World :=
  if wakeLockSupported w then
    let w' :=
      match activePlayer (state w) with
      | Some _ => requestWakeLock w
      | None => releaseWakeLock w
      end in
    with_listeners (visibilityListeners w' ++ [activePlayer (state w)]) w'
  else w.

(** The cleanup that the effect of a render with [activePlayer = a]
    returned: it removes the listener that effect registered, then
    releases the lock.  An effect that returned early returned none. *)
Definition wakeLockCleanup (a : option Player) (w : World) : World :=
  if wakeLockSupported w then
    releaseWakeLock
      (with_listeners (remove_first a (visibilityListeners w)) w)
  else w.

(** A [visibilitychange] event runs every registered listener, in the
    order of registration. *)
Definition dispatchVisibilityChange (visible : bool) (w : World) : World :=
  foldl (fun w' captured => handleVisibilityChange captured visible w')
    w (visibilityListeners w).

(** ** Event handlers (lines 155-170) *)

Definition opponent (tappedPlayer : Player) : Player :=
  match tappedPlayer with
  | player1 => player2
  | player2 => player1
  end.

Definition handlePlayerAreaClick (tappedPlayer : Player) (w : World) : World :=
  with_state (setActivePlayer (Some (opponent tappedPlayer)) (state w)) w.

Definition handlePause (w : World) : World :=
  with_state (setActivePlayer None (state w)) w.

Definition handleReset (w : World) : World :=
  with_storage (delete storageKey (localStorage w))
    (with_state
       (setPlayer2Time (fun _ => JInt 0)
          (setPlayer1Time (fun _ => JInt 0)
             (setActivePlayer None (state w)))) w).

(** ** Rendering and committing *)

Definition same_times (a b : TimerState) : bool :=
  same_value (player1Time a) (player1Time b) &&
  same_value (player2Time a) (player2Time b).

(** The effects of the render that follows a state change.  [prev] is
    the state of the previous render.  React first runs the cleanups of
    the effects whose dependencies changed, then those effects, in the
    order of the source: the save effect depends on the two times, the
    tick and wake-lock effects on [activePlayer]. *)
Definition commit (prev : TimerState) (w : World) : World :=
  let s := state w in
  let turn_changed := negb (activePlayer_eqb (activePlayer prev) (activePlayer s)) in
  let w1 :=
    if turn_changed
    then wakeLockCleanup (activePlayer prev) (tickCleanup (activePlayer prev) w)
    else w in
  let w2 :=
    if same_times prev s then w1
    else with_storage
           (saveEffect (player1Time s) (player2Time s) (localStorage w1)) w1 in
  if turn_changed then wakeLockEffect (tickEffect w2) else w2.

(** The page before the component mounts. *)
Definition blank (ls : gmap string string) (supported : bool) : World :=
  mkWorld initialState ls [] supported [] None ∅ 0 0.

(** Mounting: the first render shows [initialState]; its four effects
    run in order, the save effect with the times of that render; then the
    updates queued by the load effect are applied and the render they
    cause is committed. *)
Definition mount (ls : gmap string string) (supported : bool) : World :=
  let w0 := blank ls supported in
  let '(loaded, ls1) := loadEffect (state w0) (localStorage w0) in
  let ls2 := saveEffect (player1Time (state w0)) (player2Time (state w0)) ls1 in
  let w1 := wakeLockEffect (tickEffect (with_storage ls2 w0)) in
  commit (state w0) (with_state loaded w1).

(** ** Events *)

Inductive Event :=
| Tap (tappedPlayer : Player)
| PauseClick
| ResetClick
| IntervalFires (captured : Player)
| VisibilityChange (visible : bool)
| LockGranted
| LockDenied
| LockRevoked (id : nat).

(** One event: its handler, then the commit of the render it causes.
    [IntervalFires captured] is the firing of an armed timer whose
    callback captured [captured].  [None] means the event cannot happen
    in [w]: only an armed timer fires, a request settles only while
    pending and the platform revokes only a live sentinel. *)
Definition step (e : Event) (w : World) : option World :=
  match e with
  | Tap p => Some (commit (state w) (handlePlayerAreaClick p w))
  | PauseClick => Some (commit (state w) (handlePause w))
  | ResetClick => Some (commit (state w) (handleReset w))
  | IntervalFires captured =>
      if bool_decide (captured ∈ intervals w) then
        Some (commit (state w) (with_state (intervalCallback captured (state w)) w))
      else None
  | VisibilityChange visible => Some (dispatchVisibilityChange visible w)
  | LockGranted =>
      if Nat.ltb 0 (pending w) then Some (requestGranted w) else None
  | LockDenied =>
      if Nat.ltb 0 (pending w) then Some (requestDenied w) else None
  | LockRevoked id =>
      if bool_decide (id ∈ live w) then Some (sentinelReleased id w) else None
  end.

(** The pages reachable from a mount. *)
Inductive reachable (ls : gmap string string) (supported : bool) : World -> Prop :=
| reach_mount : reachable ls supported (mount ls supported)
| reach_step e w w' :
    reachable ls supported w -> step e w = Some w' -> reachable ls supported w'.

(** Running a list of events, for concrete traces. *)
Fixpoint run (es : list Event) (w : World) : option World :=
  match es with
  | [] => Some w
  | e :: es' => w' ← step e w; run es' w'
  end.

(** ** Render logic (lines 174-179) *)

Definition player1IsActive (s : TimerState) : bool :=
  activePlayer_eqb (activePlayer s) (Some player1).

Definition player2IsActive (s : TimerState) : bool :=
  activePlayer_eqb (activePlayer s) (Some player2).

Definition number_to_Q (n : number) : Q :=
  (inject_Z (mant n) / inject_Z (10 ^ Z.of_nat (dexp n)))%Q.

(** The sum and the two quotients are the exact ones; the code rounds
    each to binary64. *)
Definition totalTime (player1Time player2Time : number) : Q :=
  (number_to_Q player1Time + number_to_Q player2Time)%Q.

Definition player1Adjustment (player1Time player2Time : number) : Q :=
  match (0 ?= totalTime player1Time player2Time)%Q with
  | Lt => ((2 * number_to_Q player2Time) / totalTime player1Time player2Time)%Q
  | _ => 1%Q
  end.

Definition player2Adjustment (player1Time player2Time : number) : Q :=
  match (0 ?= totalTime player1Time player2Time)%Q with
  | Lt => ((2 * number_to_Q player1Time) / totalTime player1Time player2Time)%Q
  | _ => 1%Q
  end.

(** [x.toFixed(2)]: the integer nearest to [100 * |x|], the larger one on
    a tie, printed with two decimals behind the sign of [x].  Here [x]
    is the exact quotient, in the code its binary64 rounding. *)
Definition toFixed2 (x : Q) : string :=
  let n := Z.to_N (Qfloor (Qabs x * 100 + (1 # 2))%Q) in
  let sign := match (x ?= 0)%Q with Lt => "-"%string | _ => EmptyString end in
  sign +:+ dec_string (n / 100)%N +:+ "." +:+ pad_left 2 (dec_string (n mod 100)%N).

(** ** Sample records *)

(** The text of a record whose two fields hold the JSON texts [p1] and
    [p2]: an opening brace, the quoted key [p1Time], a colon, [p1], a
    comma, the quoted key [p2Time], a colon, [p2] and a closing brace. *)
Definition record_text (p1 p2 : string) : string :=
  "{" +:+ quote_json "p1Time" +:+ ":" +:+ p1 +:+ "," +:+
    quote_json "p2Time" +:+ ":" +:+ p2 +:+ "}".

(** A storage that holds one record. *)
Definition stored (text : string) : gmap string string :=
  {[ storageKey := text ]}.

(** The times as integers, when they are. *)
Definition nonneg_int (v : JSValue) : bool :=
  match v with
  | JNumber (Num m O) => 0 <=? m
  | _ => false
  end.

(** The time cell of a player. *)
Definition timeOf (p : Player) (s : TimerState) : JSValue :=
  match p with
  | player1 => player1Time s
  | player2 => player2Time s
  end.

(** What the load effect finds is sound: it reads nothing, or two
    non-negative integers. *)
Definition loads_nonneg_ints (ls : gmap string string) : bool :=
  match load_try ls with
  | Normal (Some (p1, p2)) => nonneg_int p1 && nonneg_int p2
  | _ => true
  end.

(** What may follow a numeric literal made of digits only. *)
Definition ends_number (rest : string) : bool :=
  match rest with
  | String c _ =>
      negb (is_digit c || Ascii.eqb c "." || Ascii.eqb c "e" || Ascii.eqb c "E")
  | EmptyString => true
  end.

(** ** Runs in which requests do not overlap *)

(** The events that can make the component call [requestWakeLock] or
    [releaseWakeLock]. *)
Definition user_event (e : Event) : bool :=
  match e with
  | Tap _ | PauseClick | ResetClick | VisibilityChange _ => true
  | _ => false
  end.

(** The pages reachable when no such event arrives while a request is
    still pending. *)
Inductive reachable_settled (ls : gmap string string) (supported : bool)
  : World -> Prop :=
| settled_mount : reachable_settled ls supported (mount ls supported)
| settled_step e w w' :
    reachable_settled ls supported w ->
    (user_event e = true -> pending w = 0%nat) ->
    step e w = Some w' ->
    reachable_settled ls supported w'.

(** What the wake-lock code reads and writes: the ref, the sentinels
    not released, the sentinels handed out and the requests in flight. *)
Definition lockState (w : World) : option nat * gset nat * nat * nat :=
  (wakeLockRef w, live w, created w, pending w).

(** The ref holds the one live sentinel, or there is none; and while a
    request is pending there is none. *)
Definition lock_ok (ref : option nat) (sentinels : gset nat) (requests : nat)
  : Prop :=
  (requests <= 1)%nat /\
  (requests = 1%nat -> ref = None) /\
  match ref with
  | Some id => sentinels = {[id]}
  | None => sentinels = ∅
  end.

Definition lock_settled (w : World) : Prop :=
  lock_ok (wakeLockRef w) (live w) (pending w).

(** ** Parsers that consume their input *)

(** A parser whose result leaves less text than it was given. *)
Definition shrinks (p : string -> option (JSValue * string)) : Prop :=
  forall s v r, p s = Some (v, r) -> (String.length r < String.length s)%nat.

Definition shrinks_acc {A} (p : string -> A -> option (JSValue * string)) : Prop :=
  forall s acc v r,
    p s acc = Some (v, r) -> (String.length r < String.length s)%nat.

(** ** Display (lines 32-36) *)

(** [formatTime(totalSeconds)]: [Math.floor(totalSeconds / 60)] and
    [totalSeconds % 60], each printed by [String] and padded on the left
    with zeros to two characters, with a colon between them.  The
    remainder of [%] has the sign of the dividend; on [mant / 10^dexp]
    both are taken exactly, as the code takes them on safe integers. *)
Definition formatTime (totalSeconds : number) : string :=
  let scale := 60 * 10 ^ Z.of_nat (dexp totalSeconds) in
  let minutes := int_number (mant totalSeconds / scale) in
  let seconds :=
    strip_zeros (dexp totalSeconds) (Z.rem (mant totalSeconds) scale) in
  pad_left 2 (number_to_string minutes) +:+ ":" +:+
    pad_left 2 (number_to_string seconds).

(** ** The stored record and the state *)

(** The storage holds the record of the current times, or no record
    while both times are 0. *)
Definition mirrors (w : World) : Prop :=
  localStorage w !! storageKey =
    Some (JSON_stringify
            (stateToSave (player1Time (state w)) (player2Time (state w)))) \/
  (localStorage w !! storageKey = None /\
   player1Time (state w) = JInt 0 /\ player2Time (state w) = JInt 0).

(** ** Integer times *)

(** [Number.isSafeInteger]: the integers of magnitude below 2^53, on
    which the additions and comparisons of the program are exact in
    binary64. *)
Definition isSafeInteger (z : Z) : bool := Z.abs z <? 2 ^ 53.

(** The integers that binary64 holds as a finite number, after rounding:
    a numeric literal from 2^1024 - 2^970 on is read as [Infinity]. *)
Definition rounds_to_finite (z : Z) : bool := Z.abs z <? 2 ^ 1024 - 2 ^ 970.

(** A time that is a non-negative integer of that range. *)
Definition finite_count (v : JSValue) : bool :=
  match v with
  | JNumber (Num m O) => (0 <=? m) && rounds_to_finite m
  | _ => false
  end.

(** The load effect reads nothing, or two such integers. *)
Definition loads_finite_counts (ls : gmap string string) : bool :=
  match load_try ls with
  | Normal (Some (p1, p2)) => finite_count p1 && finite_count p2
  | _ => true
  end.

(** A time that is an integer, of either sign. *)
Definition is_int (v : JSValue) : bool :=
  match v with
  | JNumber (Num _ O) => true
  | _ => false
  end.

(** The load effect reads nothing, or two integers. *)
Definition loads_ints (ls : gmap string string) : bool :=
  match load_try ls with
  | Normal (Some (p1, p2)) => is_int p1 && is_int p2
  | _ => true
  end.

(** ** Sample pages *)

(** The page after a tap. *)
Definition tapped (tappedPlayer : Player) (w : World) : World :=
  commit (state w) (handlePlayerAreaClick tappedPlayer w).

(** The page after the timer whose callback captured [captured] fired. *)
Definition ticked (captured : Player) (w : World) : World :=
  commit (state w) (with_state (intervalCallback captured (state w)) w).

(** The page after a click on pause. *)
Definition paused (w : World) : World := commit (state w) (handlePause w).

(** A game restored from a record: player 1 tapped, so that player 2 is
    on the move. *)
Definition running_12_7 : World :=
  tapped player1 (mount (stored (record_text "12" "7")) true).

(** A fresh game in which player 1 tapped and the platform granted the
    wake lock; the same game after the platform took the lock back, as
    it does when the page is hidden. *)
Definition granted_game : World := requestGranted (tapped player1 (mount ∅ true)).
Definition revoked_game : World := sentinelReleased 0 granted_game.

(** A fresh page on which both players tapped before the platform
    answered, and both requests were granted then. *)
Definition two_grants : World :=
  requestGranted (requestGranted (tapped player2 (tapped player1 (mount ∅ true)))).

(** ** Tactics *)

(** Closes the arithmetic and set goals of the lock invariant. *)
Ltac lock_goals := repeat split; try done; try lia; try set_solver.

(** * Verification *)

(** ** The fuel of the parser *)

Section Fuel.

Local Open Scope nat_scope.


Lemma skip_ws_length s : String.length (skip_ws s) <= String.length s.
Proof.
  induction s as [|c s IH]; simpl; [done|].
  destruct (is_ws c); simpl; lia.
Qed.

Lemma span_digits_length s ds r :
  span_digits s = (ds, r) -> String.length r <= String.length s.
Proof.
  revert ds r. induction s as [|c s IH]; simpl; intros ds r H.
  - by simplify_eq.
  - destruct (is_digit c).
    + destruct (span_digits s) as [ds' r'] eqn:E. simplify_eq.
      specialize (IH _ _ eq_refl). lia.
    + simplify_eq. simpl. lia.
Qed.

Lemma parse_fraction_length s fd r :
  parse_fraction s = Some (fd, r) -> String.length r <= String.length s.
Proof.
  unfold parse_fraction. intros H.
  repeat case_match; simplify_eq; simpl; try lia.
  all: match goal with
       | E : span_digits _ = _ |- _ => apply span_digits_length in E; lia
       end.
Qed.

Lemma parse_exponent_length s e r :
  parse_exponent s = Some (e, r) -> String.length r <= String.length s.
Proof.
  unfold parse_exponent. intros H.
  repeat case_match; simplify_eq; simpl; try lia.
  all: match goal with
       | E : span_digits _ = _ |- _ =>
           apply span_digits_length in E; simpl in E; lia
       end.
Qed.

Lemma parse_unsigned_length neg s n r :
  parse_unsigned neg s = Some (n, r) -> String.length r < String.length s.
Proof.
  unfold parse_unsigned. intros H.
  destruct s as [|c s]; [done|].
  destruct (is_digit c) eqn:Hd; [|done].
  destruct (if Ascii.eqb c "0" then (str1 c, s) else span_digits (String c s))
    as [ip s2] eqn:E.
  assert (String.length s2 <= String.length s).
  { destruct (Ascii.eqb c "0"); [by simplify_eq|].
    simpl in E. rewrite Hd in E.
    destruct (span_digits s) as [ds' r'] eqn:E'. simplify_eq.
    by apply span_digits_length in E'. }
  apply bind_Some in H. destruct H as ([fd s3] & Hf & H).
  apply bind_Some in H. destruct H as ([e s4] & He & H).
  apply parse_fraction_length in Hf. apply parse_exponent_length in He.
  simplify_eq. simpl. lia.
Qed.

Lemma parse_number_length s n r :
  parse_number s = Some (n, r) -> String.length r < String.length s.
Proof.
  unfold parse_number. destruct s as [|c s]; [done|].
  destruct (Ascii.eqb c "-"); intros H%parse_unsigned_length; simpl in *; lia.
Qed.

Lemma parse_string_body_length s k r :
  parse_string_body s = Some (k, r) -> String.length r < String.length s.
Proof.
  remember (String.length s) as m eqn:Hm.
  revert s k r Hm. induction m as [m IHm] using lt_wf_ind. intros s k r -> H.
  assert (IH : forall s' k' r', String.length s' < String.length s ->
            parse_string_body s' = Some (k', r') ->
            String.length r' < String.length s')
    by (intros s' k' r' Hlt; by eapply IHm).
  clear IHm. destruct s as [|c s]; [done|]. simpl in H.
  destruct (Ascii.eqb c dquote); [simplify_eq; simpl; lia|].
  destruct (Ascii.eqb c backslash).
  - destruct s as [|e s]; [done|].
    destruct (Ascii.eqb e "u").
    + destruct s as [|h1 [|h2 [|h3 [|h4 s]]]]; try done.
      do 4 (apply bind_Some in H; destruct H as (? & _ & H)).
      apply bind_Some in H. destruct H as ([str rest] & H & ?). simplify_eq.
      apply IH in H; simpl in *; lia.
    + apply bind_Some in H. destruct H as (? & _ & H).
      apply bind_Some in H. destruct H as ([str rest] & H & ?). simplify_eq.
      apply IH in H; simpl in *; lia.
  - destruct (Nat.ltb (nat_of_ascii c) 32); [done|].
    apply bind_Some in H. destruct H as ([str rest] & H & ?). simplify_eq.
    apply IH in H; simpl in *; lia.
Qed.

Lemma strip_prefix_length p s r :
  strip_prefix p s = Some r -> String.length r <= String.length s.
Proof.
  revert s. induction p as [|a p IH]; intros s H; simpl in H.
  - by simplify_eq.
  - destruct s as [|b s]; [done|].
    destruct (Ascii.eqb a b); [|done]. apply IH in H. simpl. lia.
Qed.

(** Each production consumes text when the parsers it calls do. *)
Lemma json_value_shrinks members elements :
  shrinks_acc members -> shrinks_acc elements ->
  shrinks (json_value members elements).
Proof.
  intros Hm He s v r H. unfold json_value in H.
  pose proof (skip_ws_length s) as Hs.
  destruct (skip_ws s) as [|c s1]; [done|]. simpl in Hs.
  pose proof (skip_ws_length s1) as Hs1.
  destruct (Ascii.eqb c "{").
  { destruct (skip_ws s1) as [|c2 s2]; [apply Hm in H; lia|]. simpl in Hs1.
    repeat case_match; simplify_eq; try (apply Hm in H); lia. }
  destruct (Ascii.eqb c "[").
  { destruct (skip_ws s1) as [|c2 s2]; [apply He in H; lia|]. simpl in Hs1.
    repeat case_match; simplify_eq; try (apply He in H); lia. }
  destruct (Ascii.eqb c dquote).
  { apply bind_Some in H. destruct H as ([str rest] & H & ?). simplify_eq.
    apply parse_string_body_length in H. lia. }
  repeat (case_match; [
    apply bind_Some in H; destruct H as (rest & H & ?); simplify_eq;
    apply strip_prefix_length in H; lia |]).
  apply bind_Some in H. destruct H as ([n rest] & H & ?). simplify_eq.
  apply parse_number_length in H. simpl in H. lia.
Qed.

Lemma json_elements_shrinks value elements :
  shrinks value -> shrinks_acc elements ->
  shrinks_acc (json_elements value elements).
Proof.
  intros Hv He s acc v r H. unfold json_elements in H.
  apply bind_Some in H. destruct H as ([v1 r1] & H1 & H).
  apply Hv in H1. pose proof (skip_ws_length r1) as Hs.
  destruct (skip_ws r1) as [|c r2]; [done|]. simpl in Hs.
  repeat case_match; simplify_eq; try (apply He in H); lia.
Qed.

Lemma json_members_shrinks value members :
  shrinks value -> shrinks_acc members ->
  shrinks_acc (json_members value members).
Proof.
  intros Hv Hm s acc v r H. unfold json_members in H.
  pose proof (skip_ws_length s) as Hs.
  destruct (skip_ws s) as [|c s1]; [done|]. simpl in Hs.
  destruct (Ascii.eqb c dquote); [|done].
  apply bind_Some in H. destruct H as ([k r1] & Hk & H).
  apply parse_string_body_length in Hk.
  pose proof (skip_ws_length r1) as Hs1.
  destruct (skip_ws r1) as [|c2 r2]; [done|]. simpl in Hs1.
  assert (Hv' : forall v3 r3, value r2 = Some (v3, r3) ->
            String.length r3 < String.length s)
    by (intros v3 r3 H3%Hv; lia).
  repeat case_match; simplify_eq.
  all: apply bind_Some in H; destruct H as ([v3 r3] & H3 & H).
  all: apply Hv' in H3; pose proof (skip_ws_length r3) as Hs3.
  all: destruct (skip_ws r3) as [|c4 r4]; [done|]; simpl in Hs3.
  all: repeat case_match; simplify_eq; try (apply Hm in H); lia.
Qed.

(** Whatever the fuel, a parser that succeeds has consumed text. *)
Lemma parsers_shrink fuel :
  shrinks (parse_value fuel) /\ shrinks_acc (parse_elements fuel) /\
  shrinks_acc (parse_members fuel).
Proof.
  induction fuel as [|f (Hv & He & Hm)]; [by repeat split|].
  split; [|split]; simpl.
  - by apply json_value_shrinks.
  - by apply json_elements_shrinks.
  - by apply json_members_shrinks.
Qed.

(** Each production gives the same result over parsers that agree on
    the shorter texts it passes to them. *)
Lemma json_value_stable members members' elements elements' s :
  (forall r acc, String.length r < String.length s ->
     members r acc = members' r acc) ->
  (forall r acc, String.length r < String.length s ->
     elements r acc = elements' r acc) ->
  json_value members elements s = json_value members' elements' s.
Proof.
  intros Hm He. unfold json_value.
  pose proof (skip_ws_length s) as Hs.
  destruct (skip_ws s) as [|c s1]; [done|]. simpl in Hs.
  pose proof (skip_ws_length s1) as Hs1.
  repeat case_match; try done; (apply Hm || apply He); lia.
Qed.

Lemma json_elements_stable value value' elements elements' s acc :
  shrinks value -> value s = value' s ->
  (forall r a, String.length r + 1 < String.length s ->
     elements r a = elements' r a) ->
  json_elements value elements s acc = json_elements value' elements' s acc.
Proof.
  intros Hv Heq He. unfold json_elements. rewrite <- Heq.
  destruct (value s) as [[v r]|] eqn:E; [|done]. simpl.
  apply Hv in E. pose proof (skip_ws_length r) as Hs.
  destruct (skip_ws r) as [|c r']; [done|]. simpl in Hs.
  repeat case_match; try done; apply He; lia.
Qed.

Lemma json_members_stable value value' members members' s acc :
  shrinks value ->
  (forall r, String.length r + 2 < String.length s -> value r = value' r) ->
  (forall r a, String.length r + 3 < String.length s ->
     members r a = members' r a) ->
  json_members value members s acc = json_members value' members' s acc.
Proof.
  intros Hv Heq Hm. unfold json_members.
  pose proof (skip_ws_length s) as Hs.
  destruct (skip_ws s) as [|c s1]; [done|]. simpl in Hs.
  destruct (Ascii.eqb c dquote); [|done].
  destruct (parse_string_body s1) as [[k r1]|] eqn:Ek; [|done]. simpl.
  apply parse_string_body_length in Ek.
  pose proof (skip_ws_length r1) as Hs1.
  destruct (skip_ws r1) as [|c2 r2]; [done|]. simpl in Hs1.
  repeat case_match; try done.
  rewrite <- Heq by lia.
  destruct (value r2) as [[v r3]|] eqn:E; [|done]. simpl.
  apply Hv in E. pose proof (skip_ws_length r3) as Hs3.
  destruct (skip_ws r3) as [|c4 r4]; [done|]. simpl in Hs3.
  repeat case_match; try done; apply Hm; lia.
Qed.

(** One more unit of fuel changes nothing once the fuel is twice the
    length of the text. *)
Lemma parsers_stable f :
  (forall s, 2 * String.length s + 1 <= f ->
     parse_value (S f) s = parse_value f s) /\
  (forall s acc, 2 * String.length s + 2 <= f ->
     parse_elements (S f) s acc = parse_elements f s acc) /\
  (forall s acc, 2 * String.length s + 1 <= f ->
     parse_members (S f) s acc = parse_members f s acc).
Proof.
  induction f as [|g (IHv & IHe & IHm)]; [repeat split; intros; lia|].
  pose proof (parsers_shrink (S g)) as (Hv & _ & _).
  split; [|split].
  - intros s Hb.
    change (json_value (parse_members (S g)) (parse_elements (S g)) s
            = json_value (parse_members g) (parse_elements g) s).
    apply json_value_stable; intros r acc Hr; [apply IHm | apply IHe]; lia.
  - intros s acc Hb.
    change (json_elements (parse_value (S g)) (parse_elements (S g)) s acc
            = json_elements (parse_value g) (parse_elements g) s acc).
    apply json_elements_stable; [exact Hv | apply IHv; lia |].
    intros r a Hr. apply IHe. lia.
  - intros s acc Hb.
    change (json_members (parse_value (S g)) (parse_members (S g)) s acc
            = json_members (parse_value g) (parse_members g) s acc).
    apply json_members_stable; [exact Hv | |].
    + intros r Hr. apply IHv. lia.
    + intros r a Hr. apply IHm. lia.
Qed.

(** The fuel [JSON_parse] passes is enough: with any larger amount the
    parser returns the same result, so a [SyntaxError] is never an
    artefact of the bound. *)
Lemma parse_fuel_enough fuel text :
  2 * String.length text + 2 <= fuel ->
  parse_value fuel text = parse_value (2 * String.length text + 2) text.
Proof.
  induction 1 as [|f Hle IH]; [done|].
  rewrite (proj1 (parsers_stable f)) by lia. exact IH.
Qed.

End Fuel.

(** ** What the effects leave alone *)

Lemma state_requestWakeLock w : state (requestWakeLock w) = state w.
Proof. unfold requestWakeLock. by destruct (holdsLock w). Qed.

Lemma state_releaseWakeLock w : state (releaseWakeLock w) = state w.
Proof. unfold releaseWakeLock. by repeat case_match. Qed.

Lemma state_wakeLockEffect w : state (wakeLockEffect w) = state w.
Proof.
  unfold wakeLockEffect. repeat case_match; simpl;
    auto using state_requestWakeLock, state_releaseWakeLock.
Qed.

Lemma state_wakeLockCleanup a w : state (wakeLockCleanup a w) = state w.
Proof.
  unfold wakeLockCleanup. case_match; [|done].
  by rewrite state_releaseWakeLock.
Qed.

Lemma state_tickEffect w : state (tickEffect w) = state w.
Proof. unfold tickEffect. by case_match. Qed.

Lemma state_tickCleanup a w : state (tickCleanup a w) = state w.
Proof. unfold tickCleanup. by case_match. Qed.

(** Committing a render runs effects only: the state cells keep the
    values the handler gave them. *)
Lemma state_commit prev w : state (commit prev w) = state w.
Proof.
  unfold commit.
  destruct (negb _); destruct (same_times _ _); simpl;
    rewrite ?state_wakeLockEffect, ?state_tickEffect; simpl;
    rewrite ?state_wakeLockCleanup, ?state_tickCleanup; done.
Qed.

Lemma intervals_requestWakeLock w :
  intervals (requestWakeLock w) = intervals w.
Proof. unfold requestWakeLock. by destruct (holdsLock w). Qed.

Lemma intervals_releaseWakeLock w :
  intervals (releaseWakeLock w) = intervals w.
Proof. unfold releaseWakeLock. by repeat case_match. Qed.

Lemma intervals_wakeLockEffect w :
  intervals (wakeLockEffect w) = intervals w.
Proof.
  unfold wakeLockEffect. destruct (wakeLockSupported w); [|done].
  destruct (activePlayer (state w)); simpl;
    by rewrite ?intervals_requestWakeLock, ?intervals_releaseWakeLock.
Qed.

Lemma intervals_wakeLockCleanup a w :
  intervals (wakeLockCleanup a w) = intervals w.
Proof.
  unfold wakeLockCleanup. case_match; [|done].
  by rewrite intervals_releaseWakeLock.
Qed.

Lemma remove_first_singleton {A} `{EqDecision A} (x : A) :
  remove_first x [x] = [].
Proof. simpl. by rewrite decide_True. Qed.

Lemma activePlayer_eqb_eq a b : activePlayer_eqb a b = true <-> a = b.
Proof.
  destruct a as [[]|], b as [[]|]; simpl; split; congruence.
Qed.

(** After a commit the armed timers are the one the tick effect of the
    latest render armed, provided that held before the state change: the
    cleanup cleared the timer of the previous render. *)
Lemma intervals_commit prev w :
  intervals w = option_list (activePlayer prev) ->
  intervals (commit prev w) = option_list (activePlayer (state w)).
Proof.
  intros Hi. unfold commit.
  destruct (activePlayer_eqb (activePlayer prev) (activePlayer (state w))) eqn:E;
    simpl.
  - apply activePlayer_eqb_eq in E. rewrite <- E, <- Hi. by case_match.
  - rewrite intervals_wakeLockEffect. unfold tickEffect.
    assert (Hc : intervals
              (wakeLockCleanup (activePlayer prev)
                 (tickCleanup (activePlayer prev) w)) = []).
    { rewrite intervals_wakeLockCleanup. unfold tickCleanup.
      destruct (activePlayer prev); simpl in *; rewrite Hi; [|done].
      apply remove_first_singleton. }
    destruct (same_times prev (state w)); simpl;
      rewrite ?state_wakeLockCleanup, ?state_tickCleanup;
      destruct (activePlayer (state w)); simpl; by rewrite ?Hc.
Qed.

(** ** Turn switching *)

(** C1.  Whatever the state, a tap on the side of player [X] is handled
    without error and leaves the opponent of [X] active, never [X]. *)
Theorem switchTurn_activates_opponent (X : Player) (w : World) :
  exists w', step (Tap X) w = Some w' /\
    activePlayer (state w') = Some (opponent X) /\
    activePlayer (state w') <> Some X /\
    activePlayer (state (handlePlayerAreaClick X w)) = Some (opponent X).
Proof.
  eexists. split; [reflexivity|].
  rewrite state_commit. simpl. repeat split.
  by destruct X.
Qed.

(** C10.  Pausing and tapping change [activePlayer] only: both elapsed
    times keep their values, in the handler and after the render it
    causes. *)
Theorem pause_and_tap_keep_times (w : World) (X : Player) :
  (exists w', step PauseClick w = Some w' /\
     player1Time (state w') = player1Time (state w) /\
     player2Time (state w') = player2Time (state w)) /\
  (exists w', step (Tap X) w = Some w' /\
     player1Time (state w') = player1Time (state w) /\
     player2Time (state w') = player2Time (state w)) /\
  player1Time (state (handlePause w)) = player1Time (state w) /\
  player2Time (state (handlePause w)) = player2Time (state w) /\
  player1Time (state (handlePlayerAreaClick X w)) = player1Time (state w) /\
  player2Time (state (handlePlayerAreaClick X w)) = player2Time (state w).
Proof.
  repeat split; try (eexists; split; [reflexivity|]);
    rewrite ?state_commit; done.
Qed.
Lemma number_eqb_refl n : number_eqb n n = true.
Proof. unfold number_eqb. by rewrite Z.eqb_refl, Nat.eqb_refl. Qed.

Lemma same_value_refl (v : JSValue) : same_value v v = true.
Proof.
  revert v. fix IHv 1. intros v.
  destruct v as [|b|n|s|elems|props]; simpl.
  - done.
  - by destruct b.
  - apply number_eqb_refl.
  - apply String.eqb_refl.
  - induction elems as [|x l IH]; [done|].
    by rewrite IHv, IH.
  - induction props as [|[k x] l IH]; [done|].
    by rewrite String.eqb_refl, IHv, IH.
Qed.

Lemma same_times_refl s : same_times s s = true.
Proof. unfold same_times. by rewrite !same_value_refl. Qed.

Lemma storage_requestWakeLock w :
  localStorage (requestWakeLock w) = localStorage w.
Proof. unfold requestWakeLock. by destruct (holdsLock w). Qed.

Lemma storage_releaseWakeLock w :
  localStorage (releaseWakeLock w) = localStorage w.
Proof. unfold releaseWakeLock. by repeat case_match. Qed.

Lemma storage_wakeLockEffect w :
  localStorage (wakeLockEffect w) = localStorage w.
Proof.
  unfold wakeLockEffect. repeat case_match; simpl;
    auto using storage_requestWakeLock, storage_releaseWakeLock.
Qed.

Lemma storage_wakeLockCleanup a w :
  localStorage (wakeLockCleanup a w) = localStorage w.
Proof.
  unfold wakeLockCleanup. case_match; [|done].
  by rewrite storage_releaseWakeLock.
Qed.

Lemma storage_tickEffect w : localStorage (tickEffect w) = localStorage w.
Proof. unfold tickEffect. by case_match. Qed.

Lemma storage_tickCleanup a w :
  localStorage (tickCleanup a w) = localStorage w.
Proof. unfold tickCleanup. by case_match. Qed.

(** The storage after a commit: the save effect runs exactly when one of
    the two times changed. *)
Lemma storage_commit prev w :
  localStorage (commit prev w) =
    if same_times prev (state w) then localStorage w
    else saveEffect (player1Time (state w)) (player2Time (state w))
           (localStorage w).
Proof.
  unfold commit.
  destruct (negb _); destruct (same_times _ _); simpl;
    rewrite ?storage_wakeLockEffect, ?storage_tickEffect; simpl;
    rewrite ?storage_wakeLockCleanup, ?storage_tickCleanup; done.
Qed.

(** ** Mounting *)

Lemma state_mount ls supported :
  state (mount ls supported) = fst (loadEffect initialState ls).
Proof.
  unfold mount. simpl.
  destruct (loadEffect initialState ls) as [loaded ls1].
  by rewrite state_commit.
Qed.

Lemma activePlayer_loadEffect s ls :
  activePlayer (fst (loadEffect s ls)) = None.
Proof. unfold loadEffect. by repeat case_match. Qed.

Lemma load_try_record_12_7 ls :
  load_try (<[storageKey := record_text "12" "7"]> ls) =
    Normal (Some (JInt 12, JInt 7)).
Proof. unfold load_try. by rewrite lookup_insert_eq. Qed.

(** C7.  The component always starts paused: whatever the storage holds,
    [activePlayer] is [null] after the mount; and with the record
    [p1Time: 12, p2Time: 7] stored, the times are restored to 12 and 7
    while the game is still paused. *)
Theorem mount_starts_paused :
  (forall ls supported, activePlayer (state (mount ls supported)) = None) /\
  (forall ls supported,
     state (mount (<[storageKey := record_text "12" "7"]> ls) supported)
       = mkState (JInt 12) (JInt 7) None).
Proof.
  split; intros ls supported; rewrite state_mount.
  - apply activePlayer_loadEffect.
  - unfold loadEffect. by rewrite load_try_record_12_7.
Qed.

(** ** Loading *)

(** C4, as the code has it.  The load effect never lets an exception
    out: whatever its [try] block throws, the [catch] removes the record
    and the effect ends with the times unchanged.  A missing record, or
    an empty one, leaves the times and the storage as they are.  A record
    that [JSON.parse] rejects, or that parses to [null], makes the [try]
    block throw, so it is removed and the times stay as they are.  A
    record that parses to anything else is kept: of an object, each of
    [p1Time] and [p2Time] that is missing or falsy becomes 0 and any
    other value, a number or not, goes into the state unchanged; of a
    value that is not an object, both times become 0. *)
Theorem load_fallbacks (s : TimerState) (ls : gmap string string) :
  (forall e, load_try ls = Throw e ->
     loadEffect s ls = (setActivePlayer None s, delete storageKey ls)) /\
  (ls !! storageKey = None \/ ls !! storageKey = Some EmptyString ->
     loadEffect s ls = (setActivePlayer None s, ls)) /\
  (forall text, ls !! storageKey = Some text -> text <> EmptyString ->
     (exists e, JSON_parse text = Throw e) \/ JSON_parse text = Normal JNull ->
     loadEffect s ls = (setActivePlayer None s, delete storageKey ls)) /\
  (forall text props, ls !! storageKey = Some text ->
     JSON_parse text = Normal (JObject props) ->
     loadEffect s ls =
       (mkState (or_zero (js_get "p1Time" props))
          (or_zero (js_get "p2Time" props)) None, ls)) /\
  (forall text v, ls !! storageKey = Some text -> text <> EmptyString ->
     JSON_parse text = Normal v ->
     v <> JNull -> (forall props, v <> JObject props) ->
     loadEffect s ls = (mkState (JInt 0) (JInt 0) None, ls)) /\
  or_zero None = JInt 0 /\
  (forall v, truthy v = false -> or_zero (Some v) = JInt 0) /\
  (forall v, truthy v = true -> or_zero (Some v) = v).
Proof.
  split; [intros e He; unfold loadEffect; by rewrite He|].
  unfold loadEffect, load_try. repeat split.
  - intros [-> | ->]; done.
  - intros text -> Hne [[e ->] | ->]; apply String.eqb_neq in Hne;
      by rewrite Hne.
  - intros text props -> Hp.
    destruct (String.eqb_spec text EmptyString) as [-> | _]; [done|].
    by rewrite Hp.
  - intros text v -> Hne Hp Hnull Hobj. apply String.eqb_neq in Hne.
    rewrite Hne, Hp. simpl.
    destruct v; simpl; try done. by destruct (Hobj props).
  - intros v Hv. simpl. by rewrite Hv.
  - intros v Hv. simpl. by rewrite Hv.
Qed.

(** The record whose [p1Time] is the string [abc] parses, so nothing is
    thrown: the string goes into [player1Time] and the record stays. *)
Lemma load_keeps_non_numeric_record :
  let text := record_text (quote_json "abc") "7" in
  JSON_parse text =
    Normal (JObject [("p1Time"%string, JString "abc"); ("p2Time"%string, JInt 7)]) /\
  loadEffect initialState (stored text) =
    (mkState (JString "abc") (JInt 7) None, stored text) /\
  loadEffect initialState (stored text) <>
    (initialState, delete storageKey (stored text)).
Proof.
  split; [reflexivity|]. split; [reflexivity|].
  intros H. apply (f_equal fst) in H. discriminate H.
Qed.

(** An object without the two fields is no exception either: the times
    are 0 and the record stays. *)
Lemma load_keeps_record_without_fields :
  loadEffect initialState (stored "{}") = (initialState, stored "{}") /\
  stored "{}" !! storageKey = Some "{}"%string.
Proof. split; reflexivity. Qed.

Lemma load_fallbacks_witness :
  loadEffect initialState (stored "not json") =
    (initialState, delete storageKey (stored "not json")) /\
  loadEffect initialState (stored "null") =
    (initialState, delete storageKey (stored "null")) /\
  loadEffect initialState ∅ = (initialState, ∅) /\
  loadEffect initialState (stored (record_text "12" "null")) =
    (mkState (JInt 12) (JInt 0) None, stored (record_text "12" "null")).
Proof.
  split; [|split; [|split]].
  - apply (proj1 (proj2 (proj2 (load_fallbacks initialState (stored "not json"))))
             "not json"%string).
    + reflexivity.
    + discriminate.
    + left. exists SyntaxError. reflexivity.
  - apply (proj1 (load_fallbacks initialState (stored "null")) TypeError).
    reflexivity.
  - apply (proj1 (proj2 (load_fallbacks initialState ∅))).
    left. reflexivity.
  - apply (proj1 (proj2 (proj2 (proj2
             (load_fallbacks initialState (stored (record_text "12" "null"))))))
             (record_text "12" "null")
             [("p1Time"%string, JInt 12); ("p2Time"%string, JNull)]);
      reflexivity.
Defined.

(** ** Resetting *)

(** The reset handler by itself: it leaves the state (0, 0, paused) and
    removes the record, so that a load on the storage as the handler
    left it, before the render that follows, would find no record. *)
Lemma reset_erases_record (w : World) (s : TimerState) :
  state (handleReset w) = initialState /\
  localStorage (handleReset w) = delete storageKey (localStorage w) /\
  localStorage (handleReset w) !! storageKey = None /\
  load_try (localStorage (handleReset w)) = Normal None /\
  loadEffect s (localStorage (handleReset w))
    = (setActivePlayer None s, localStorage (handleReset w)).
Proof.
  assert (H : localStorage (handleReset w) !! storageKey = None)
    by apply lookup_delete_eq.
  assert (Hl : load_try (localStorage (handleReset w)) = Normal None)
    by (unfold load_try; by rewrite H).
  repeat split; try done. unfold loadEffect. by rewrite Hl.
Qed.

(** X19.  The render that follows a reset saves again when a time changed:
    the save effect depends on the two times, so unless both were 0
    already it runs and stores a record of two zeros, which the next
    load reads.  After a click on reset the record is absent exactly
    when no save intervened. *)
Lemma reset_then_commit (w : World) :
  exists w', step ResetClick w = Some w' /\
    state w' = initialState /\
    localStorage w' !! storageKey =
      (if same_times (state w) initialState then None
       else Some (record_text "0" "0")) /\
    load_try (localStorage w') =
      (if same_times (state w) initialState then Normal None
       else Normal (Some (JInt 0, JInt 0))).
Proof.
  eexists. split; [reflexivity|].
  rewrite state_commit, storage_commit.
  split; [reflexivity|].
  change (same_times (state w) (state (handleReset w)))
    with (same_times (state w) initialState).
  unfold load_try.
  destruct (same_times (state w) initialState).
  - assert (H : localStorage (handleReset w) !! storageKey = None)
      by apply lookup_delete_eq.
    by rewrite H.
  - unfold saveEffect. by rewrite lookup_insert_eq.
Qed.

(** C3, where the code departs from it.  A game in which player 2 has
    used two seconds: the reset gives the state (0, 0, paused), but the
    render it causes runs the save effect, and the storage holds the
    record of two zeros afterwards instead of no record; a load then
    reads that record. *)
Example reset_after_two_ticks :
  let game := [Tap player1; IntervalFires player2; IntervalFires player2] in
  state <$> run game (mount ∅ true)
    = Some (mkState (JInt 0) (JInt 2) (Some player2)) /\
  state <$> run (game ++ [ResetClick]) (mount ∅ true) = Some initialState /\
  (fun w => localStorage w !! storageKey) <$>
      run (game ++ [ResetClick]) (mount ∅ true)
    = Some (Some (record_text "0" "0")) /\
  (fun w => load_try (localStorage w)) <$>
      run (game ++ [ResetClick]) (mount ∅ true)
    = Some (Normal (Some (JInt 0, JInt 0))).
Proof. repeat split; vm_compute; reflexivity. Qed.

(** ** Ticking *)

(** A visibility listener can only send a wake-lock request. *)
Lemma handleVisibilityChange_frame c v w :
  let w' := handleVisibilityChange c v w in
  state w' = state w /\ localStorage w' = localStorage w /\
  intervals w' = intervals w /\
  visibilityListeners w' = visibilityListeners w /\
  wakeLockSupported w' = wakeLockSupported w /\
  wakeLockRef w' = wakeLockRef w /\ live w' = live w /\
  created w' = created w /\ (pending w <= pending w')%nat.
Proof.
  unfold handleVisibilityChange, requestWakeLock.
  destruct c; [|done]. destruct v; [|done].
  destruct (holdsLock w); simpl; repeat split; lia.
Qed.

Lemma foldl_handleVisibilityChange_frame v l w :
  let w' := foldl (fun x c => handleVisibilityChange c v x) w l in
  state w' = state w /\ localStorage w' = localStorage w /\
  intervals w' = intervals w /\
  visibilityListeners w' = visibilityListeners w /\
  wakeLockSupported w' = wakeLockSupported w /\
  wakeLockRef w' = wakeLockRef w /\ live w' = live w /\
  created w' = created w /\ (pending w <= pending w')%nat.
Proof.
  revert w. induction l as [|c l IH]; intros w; simpl; [repeat split; lia|].
  destruct (IH (handleVisibilityChange c v w))
    as (-> & -> & -> & -> & -> & -> & -> & -> & Hp).
  destruct (handleVisibilityChange_frame c v w)
    as (-> & -> & -> & -> & -> & -> & -> & -> & Hp').
  repeat split. lia.
Qed.

(** So does the dispatch of a visibility change to all listeners. *)
Lemma dispatchVisibilityChange_frame v w :
  let w' := dispatchVisibilityChange v w in
  state w' = state w /\ localStorage w' = localStorage w /\
  intervals w' = intervals w /\
  visibilityListeners w' = visibilityListeners w /\
  wakeLockSupported w' = wakeLockSupported w /\
  wakeLockRef w' = wakeLockRef w /\ live w' = live w /\
  created w' = created w /\ (pending w <= pending w')%nat.
Proof. apply foldl_handleVisibilityChange_frame. Qed.

Lemma state_dispatchVisibilityChange v w :
  state (dispatchVisibilityChange v w) = state w.
Proof. apply dispatchVisibilityChange_frame. Qed.

(** The state a step leads to, event by event. *)
Lemma state_step e w w' :
  step e w = Some w' ->
  state w' =
    match e with
    | Tap p => setActivePlayer (Some (opponent p)) (state w)
    | PauseClick => setActivePlayer None (state w)
    | ResetClick => initialState
    | IntervalFires captured => intervalCallback captured (state w)
    | _ => state w
    end.
Proof.
  destruct e; simpl; intros H; repeat case_match; simplify_eq;
    rewrite ?state_commit, ?state_dispatchVisibilityChange; done.
Qed.

(** The only timer armed is the one of the active player: whenever
    [activePlayer] changes, the cleanup of the tick effect clears the
    timer of the previous render before the effect arms the next. *)
Lemma intervals_follow_activePlayer ls supported w :
  reachable ls supported w ->
  intervals w = option_list (activePlayer (state w)).
Proof.
  induction 1 as [|e w w' Hr IH Hs].
  - unfold mount. simpl.
    destruct (loadEffect initialState ls) as [loaded ls1] eqn:E.
    rewrite intervals_commit, state_commit; simpl.
    + pose proof (activePlayer_loadEffect initialState ls) as H.
      by rewrite E in H.
    + by rewrite intervals_wakeLockEffect.
  - destruct e; simpl in Hs.
    + simplify_eq. rewrite state_commit. by apply intervals_commit.
    + simplify_eq. rewrite state_commit. by apply intervals_commit.
    + simplify_eq. rewrite state_commit. by apply intervals_commit.
    + case_bool_decide; [|done]. simplify_eq.
      rewrite state_commit. by apply intervals_commit.
    + simplify_eq.
      destruct (dispatchVisibilityChange_frame visible w)
        as (-> & _ & -> & _). done.
    + destruct (Nat.ltb 0 (pending w)); [|done]. by simplify_eq.
    + destruct (Nat.ltb 0 (pending w)); [|done]. by simplify_eq.
    + case_bool_decide; [|done]. by simplify_eq.
Qed.

(** Which timers can fire in a reachable page. *)
Lemma armed_timer ls supported w q :
  reachable ls supported w ->
  q ∈ intervals w <-> activePlayer (state w) = Some q.
Proof.
  intros ->%intervals_follow_activePlayer.
  destruct (activePlayer (state w)) as [p|]; simpl.
  - rewrite list_elem_of_singleton. split; congruence.
  - rewrite elem_of_nil. split; [done | congruence].
Qed.

Lemma js_plus_one_int z : js_plus_one (JInt z) = JInt (z + 1).
Proof. reflexivity. Qed.

(** On a number [prev + 1] is a number, larger by exactly one. *)
Lemma js_plus_one_number n :
  exists n', js_plus_one (JNumber n) = JNumber n' /\
    (number_to_Q n' == number_to_Q n + 1)%Q.
Proof.
  eexists. split; [reflexivity|].
  unfold number_to_Q. simpl.
  assert (H : ~ (inject_Z (10 ^ Z.of_nat (dexp n)) == 0)%Q).
  { change 0%Q with (inject_Z 0). rewrite inject_Z_injective.
    apply Z.pow_nonzero; lia. }
  rewrite inject_Z_plus. field. exact H.
Qed.

(** A string that was loaded stays a string, and the tick appends to it:
    the time of player 1 is not incremented by 1. *)
Example tick_on_a_loaded_string :
  let ls := stored (record_text (quote_json "abc") "7") in
  state <$> run [Tap player2] (mount ls true)
    = Some (mkState (JString "abc") (JInt 7) (Some player1)) /\
  state <$> run [Tap player2; IntervalFires player1] (mount ls true)
    = Some (mkState (JString "abc1") (JInt 7) (Some player1)).
Proof. split; vm_compute; reflexivity. Qed.

(** C2, as the code has it.  In every reachable page the timers armed
    are exactly the one of the active player, none while nobody is
    active.  While player [p] is active only the timer of [p] can fire;
    one firing keeps the active player and the other player's time, and
    it makes a time that is a safe integer exactly one more, and appends
    the character 1 to a time that is a string.  While nobody is active
    no timer can fire, in particular not after a pause, whose commit
    clears the timer. *)
Theorem tick_increments_active_player ls supported w :
  reachable ls supported w ->
  intervals w = option_list (activePlayer (state w)) /\
  (forall p, activePlayer (state w) = Some p ->
     step (IntervalFires (opponent p)) w = None /\
     exists w', step (IntervalFires p) w = Some w' /\
       activePlayer (state w') = Some p /\
       timeOf (opponent p) (state w') = timeOf (opponent p) (state w) /\
       (forall z, timeOf p (state w) = JInt z -> isSafeInteger z = true ->
          timeOf p (state w') = JInt (z + 1)) /\
       (forall s, timeOf p (state w) = JString s ->
          timeOf p (state w') = JString (s +:+ "1"))) /\
  (activePlayer (state w) = None ->
     forall q, step (IntervalFires q) w = None) /\
  (exists w', step PauseClick w = Some w' /\ intervals w' = [] /\
     forall q, step (IntervalFires q) w' = None).
Proof.
  intros Hr. pose proof (intervals_follow_activePlayer _ _ _ Hr) as Hi.
  split; [exact Hi|]. split; [|split].
  - intros p Ha. rewrite Ha in Hi. simpl in Hi. split.
    + simpl. rewrite Hi, bool_decide_eq_false_2; [done|].
      rewrite list_elem_of_singleton. by destruct p.
    + eexists. simpl. rewrite Hi, bool_decide_eq_true_2
        by (by apply list_elem_of_singleton).
      split; [reflexivity|]. rewrite state_commit. simpl.
      assert (Ht : timeOf p (intervalCallback p (state w))
                   = js_plus_one (timeOf p (state w))) by by destruct p.
      repeat split.
      * by destruct p.
      * by destruct p.
      * intros z Hz _. by rewrite Ht, Hz.
      * intros s Hs. by rewrite Ht, Hs.
  - intros Ha q. rewrite Ha in Hi. simpl. rewrite Hi.
    rewrite bool_decide_eq_false_2; [done | apply not_elem_of_nil].
  - assert (Hp : intervals (commit (state w) (handlePause w)) = [])
      by (by rewrite intervals_commit).
    eexists. split; [reflexivity|]. split; [exact Hp|].
    intros q. simpl. rewrite Hp.
    rewrite bool_decide_eq_false_2; [done | apply not_elem_of_nil].
Qed.

Lemma tick_increments_active_player_witness :
  exists w, step (Tap player1) (mount ∅ true) = Some w /\
    exists w', step (IntervalFires player2) w = Some w' /\
      activePlayer (state w') = Some player2 /\
      player2Time (state w') = JInt 1 /\
      player1Time (state w') = JInt 0.
Proof.
  eexists. split; [reflexivity|].
  destruct (tick_increments_active_player ∅ true _
              (reach_step ∅ true (Tap player1) _ _
                 (reach_mount ∅ true) eq_refl)) as (_ & Hp & _).
  destruct (Hp player2) as (_ & w' & Hs & Ha & Ho & Hz & _);
    [vm_compute; reflexivity|].
  exists w'. repeat split; [exact Hs | exact Ha | | exact Ho].
  apply (Hz 0); reflexivity.
Defined.

(** ** The invariant of the clock *)

Lemma nonneg_int_spec v :
  nonneg_int v = true <-> exists a, 0 <= a /\ v = JInt a.
Proof.
  split.
  - destruct v as [| |[m [|d]]| | |]; simpl; try discriminate.
    intros H. exists m. split; [lia|done].
  - intros (a & Ha & ->). simpl. lia.
Qed.

Lemma nonneg_int_plus_one v :
  nonneg_int v = true -> nonneg_int (js_plus_one v) = true.
Proof.
  intros (a & Ha & ->)%nonneg_int_spec.
  rewrite js_plus_one_int. apply nonneg_int_spec. exists (a + 1). split; [lia|done].
Qed.

(** Both times are non-negative integers as long as the load effect found
    nothing else in the storage. *)
Lemma times_are_nonneg_ints ls supported w :
  reachable ls supported w ->
  loads_nonneg_ints ls = true ->
  nonneg_int (player1Time (state w)) = true /\
  nonneg_int (player2Time (state w)) = true.
Proof.
  intros Hr Hls. induction Hr as [|e w w' Hr IH Hs].
  - rewrite state_mount. unfold loads_nonneg_ints in Hls. unfold loadEffect.
    destruct (load_try ls) as [[[p1 p2]|]|]; simpl; try done.
    by apply andb_true_iff in Hls.
  - destruct IH as [H1 H2].
    rewrite (state_step _ _ _ Hs).
    destruct e as [| | |[]| | | |]; simpl; auto using nonneg_int_plus_one.
Qed.

Lemma finite_count_nonneg_int v : finite_count v = true -> nonneg_int v = true.
Proof.
  destruct v as [| |[m [|d]]| | |]; simpl; try discriminate.
  by intros [? _]%andb_true_iff.
Qed.

Lemma loads_finite_counts_nonneg ls :
  loads_finite_counts ls = true -> loads_nonneg_ints ls = true.
Proof.
  unfold loads_finite_counts, loads_nonneg_ints.
  destruct (load_try ls) as [[[p1 p2]|]|]; try done.
  intros [H1 H2]%andb_true_iff.
  by rewrite (finite_count_nonneg_int _ H1), (finite_count_nonneg_int _ H2).
Qed.

(** A time that is a number is a number after any event but a reset,
    and not a smaller one. *)
Lemma number_never_decreases e w w' p n :
  step e w = Some w' -> e <> ResetClick ->
  timeOf p (state w) = JNumber n ->
  exists n', timeOf p (state w') = JNumber n' /\
    (number_to_Q n <= number_to_Q n')%Q.
Proof.
  intros Hs He Hn. rewrite (state_step _ _ _ Hs).
  assert (Hsame : exists n', timeOf p (state w) = JNumber n' /\
            (number_to_Q n <= number_to_Q n')%Q)
    by (exists n; split; [done | apply Qle_refl]).
  assert (Hplus : exists n', js_plus_one (timeOf p (state w)) = JNumber n' /\
            (number_to_Q n <= number_to_Q n')%Q).
  { rewrite Hn. destruct (js_plus_one_number n) as (n' & -> & Hq).
    exists n'. split; [done|]. rewrite Hq. lra. }
  destruct e as [| | |[]| | | |]; try done; destruct p; simpl; done.
Qed.

(** The record [p1Time: -5, p2Time: 7] is valid JSON and the load effect
    takes it as it is: player 1 starts with a negative time. *)
Lemma mount_loads_negative_time :
  let w := mount (stored (record_text "-5" "7")) true in
  reachable (stored (record_text "-5" "7")) true w /\
  state w = mkState (JInt (-5)) (JInt 7) None /\
  nonneg_int (player1Time (state w)) = false.
Proof. split; [constructor|]. split; reflexivity. Qed.

(** C5, as the code has it.  In every reachable page at most one player
    is shown active; a time that is a number is not made smaller by any
    event other than a reset, and a reset makes both times 0.  When the
    load effect found no record, a record it could not read, or one
    whose two values are non-negative integers that binary64 holds as
    finite numbers, both times are non-negative integers in every
    reachable page. *)
Theorem clock_invariant ls supported w :
  reachable ls supported w ->
  player1IsActive (state w) && player2IsActive (state w) = false /\
  (forall e w' p n,
     step e w = Some w' -> e <> ResetClick ->
     timeOf p (state w) = JNumber n ->
     exists n', timeOf p (state w') = JNumber n' /\
       (number_to_Q n <= number_to_Q n')%Q) /\
  (forall w', step ResetClick w = Some w' ->
     player1Time (state w') = JInt 0 /\ player2Time (state w') = JInt 0) /\
  (loads_finite_counts ls = true ->
   exists a b,
     player1Time (state w) = JInt a /\ player2Time (state w) = JInt b /\
     0 <= a /\ 0 <= b).
Proof.
  intros Hr. split; [|split; [|split]].
  - unfold player1IsActive, player2IsActive.
    by destruct (activePlayer (state w)) as [[]|].
  - intros e w' p n. apply number_never_decreases.
  - intros w' Hs. by rewrite (state_step _ _ _ Hs).
  - intros Hls%loads_finite_counts_nonneg.
    destruct (times_are_nonneg_ints _ _ _ Hr Hls) as
      [(a & Ha & Ea)%nonneg_int_spec (b & Hb & Eb)%nonneg_int_spec].
    by exists a, b.
Qed.

Lemma running_12_7_reachable :
  reachable (stored (record_text "12" "7")) true running_12_7.
Proof.
  apply (reach_step _ _ (Tap player1)
           (mount (stored (record_text "12" "7")) true)); [|reflexivity].
  apply reach_mount.
Defined.

Lemma clock_invariant_witness :
  (exists a b,
     player1Time (state running_12_7) = JInt a /\
     player2Time (state running_12_7) = JInt b /\ 0 <= a /\ 0 <= b) /\
  (exists n',
     timeOf player2 (state (ticked player2 running_12_7)) = JNumber n' /\
     (number_to_Q (int_number 7) <= number_to_Q n')%Q) /\
  player2Time (state (commit (state running_12_7) (handleReset running_12_7)))
    = JInt 0.
Proof.
  destruct (clock_invariant (stored (record_text "12" "7")) true running_12_7
              running_12_7_reachable) as (_ & Hmono & Hreset & Hint).
  split; [|split].
  - apply Hint. vm_compute. reflexivity.
  - apply (Hmono (IntervalFires player2) (ticked player2 running_12_7)
             player2 (int_number 7));
      [vm_compute; reflexivity | discriminate | vm_compute; reflexivity].
  - apply Hreset. reflexivity.
Defined.

(** ** Saving and loading back *)

Lemma append_cons c (s t : string) : String c s +:+ t = String c (s +:+ t).
Proof. reflexivity. Qed.

Lemma append_nil_l (t : string) : EmptyString +:+ t = t.
Proof. reflexivity. Qed.

Lemma append_nil_r (s : string) : s +:+ EmptyString = s.
Proof.
  induction s as [|c s IH]; [done|]. by rewrite append_cons, IH.
Qed.

Lemma append_assoc (s t u : string) : (s +:+ t) +:+ u = s +:+ (t +:+ u).
Proof.
  induction s as [|c s IH]; [done|]. by rewrite !append_cons, IH.
Qed.

Lemma span_digits_uint u rest :
  ends_number rest = true ->
  span_digits (NilEmpty.string_of_uint u +:+ rest)
    = (NilEmpty.string_of_uint u, rest).
Proof.
  intros Hr.
  induction u; cbn [NilEmpty.string_of_uint];
    rewrite ?append_cons, ?append_nil_l;
    try (cbn [span_digits]; rewrite IHu; reflexivity).
  destruct rest as [|c r]; [done|]. simpl in *.
  destruct (is_digit c); [discriminate|done].
Qed.

Lemma digits_value_uint u :
  digits_value (NilEmpty.string_of_uint u) = N.of_uint u.
Proof. unfold digits_value. by rewrite NilEmpty.usu. Qed.

(** The decimal form of a number has no leading zero, except for 0. *)
Lemma to_uint_zero_head n d : N.to_uint n = Decimal.D0 d -> d = Decimal.Nil.
Proof.
  intros H.
  assert (Hn : Decimal.unorm (N.to_uint n) = N.to_uint n).
  { rewrite <- DecimalN.Unsigned.to_of. by rewrite DecimalN.Unsigned.of_to. }
  rewrite H in Hn. rewrite DecimalFacts.unorm_D0 in Hn.
  destruct d; try done;
    (eassert (Hd : _ <> Decimal.Nil) by shelve;
     pose proof (DecimalFacts.nb_digits_unorm _ Hd) as Hle;
     rewrite Hn in Hle; simpl in Hle; lia).
  Unshelve. all: discriminate.
Qed.

Lemma to_uint_nonnil n : N.to_uint n <> Decimal.Nil.
Proof.
  destruct n; [discriminate|]. apply DecimalPos.Unsigned.to_uint_nonnil.
Qed.

Lemma parse_number_digit c r :
  is_digit c = true ->
  parse_number (String c r) =
    let '(ip, s2) :=
      if Ascii.eqb c "0" then (str1 c, r) else span_digits (String c r) in
    '(fd, s3) ← parse_fraction s2;
    '(e, s4) ← parse_exponent s3;
    Some (make_number false (digits_value (ip +:+ fd))
            (e - Z.of_nat (String.length fd)), s4).
Proof.
  intros H. unfold parse_number, parse_unsigned. rewrite H.
  destruct (Ascii.eqb_spec c "-") as [->|_]; [discriminate H | reflexivity].
Qed.

(** The decimal form starts with a digit, which is a zero only for 0. *)
Lemma dec_string_head n :
  exists c r, dec_string n = String c r /\ is_digit c = true /\
    (Ascii.eqb c "0" = true -> n = 0%N).
Proof.
  unfold dec_string.
  pose proof (DecimalN.Unsigned.of_to n) as Hof.
  pose proof (to_uint_nonnil n) as Hnil.
  pose proof (to_uint_zero_head n) as Hz.
  destruct (N.to_uint n) as [|d|d|d|d|d|d|d|d|d|d] eqn:E; [done|..];
    cbn [NilEmpty.string_of_uint]; do 2 eexists;
    (split; [reflexivity|]); (split; [reflexivity|]); try discriminate.
  intros _. rewrite (Hz d eq_refl) in Hof. by rewrite <- Hof.
Qed.

Lemma parse_number_dec n rest :
  ends_number rest = true ->
  parse_number (dec_string n +:+ rest) = Some (int_number (Z.of_N n), rest).
Proof.
  intros Hr.
  assert (Hfrac : parse_fraction rest = Some (EmptyString, rest)).
  { destruct rest as [|c r]; [done|]. simpl in Hr.
    destruct c as [[] [] [] [] [] [] [] []]; try done. }
  assert (Hexp : parse_exponent rest = Some (0, rest)).
  { destruct rest as [|c r]; [done|]. simpl in Hr.
    destruct c as [[] [] [] [] [] [] [] []]; try done. }
  assert (Hmk : forall e, e = 0 -> make_number false n e = int_number (Z.of_N n)).
  { intros e ->. unfold make_number, int_number. simpl. f_equal. lia. }
  destruct (dec_string_head n) as (c & r & E & Hc & Hzero).
  rewrite E, append_cons, parse_number_digit by exact Hc.
  destruct (Ascii.eqb c "0") eqn:Ec.
  - specialize (Hzero eq_refl). subst n.
    injection E as <- <-. rewrite append_nil_l. cbv beta iota.
    rewrite Hfrac. simpl. rewrite Hexp. simpl.
    reflexivity.
  - rewrite <- append_cons, <- E. unfold dec_string.
    rewrite span_digits_uint by exact Hr. cbv beta iota.
    rewrite Hfrac. simpl. rewrite Hexp. simpl.
    rewrite append_nil_r, digits_value_uint, DecimalN.Unsigned.of_to.
    by rewrite Hmk.
Qed.

Lemma parse_value_digit f c r :
  is_digit c = true ->
  parse_value (S f) (String c r) =
    '(n, rest) ← parse_number (String c r); Some (JNumber n, rest).
Proof.
  intros H.
  destruct c as [[] [] [] [] [] [] [] []];
    try (vm_compute in H; discriminate H); reflexivity.
Qed.

Lemma parse_value_dec f n rest :
  ends_number rest = true ->
  parse_value (S f) (dec_string n +:+ rest) = Some (JInt (Z.of_N n), rest).
Proof.
  intros Hr. destruct (dec_string_head n) as (c & r & E & Hc & _).
  rewrite E, append_cons, parse_value_digit by exact Hc.
  rewrite <- append_cons, <- E, parse_number_dec by exact Hr.
  reflexivity.
Qed.

(** The first member of the saved record, when its value is followed
    by a comma. *)
Lemma parse_members_p1Time f value v rest acc :
  parse_value f value = Some (v, "," +:+ rest) ->
  parse_members (S f) (quote_json "p1Time" +:+ ":" +:+ value) acc =
    parse_members f rest (obj_set "p1Time" v acc).
Proof.
  intros H.
  change (parse_members (S f) (quote_json "p1Time" +:+ ":" +:+ value) acc)
    with ('(v, r3) ← parse_value f value;
          match skip_ws r3 with
          | String "," r4 => parse_members f r4 (obj_set "p1Time" v acc)
          | String "}" r4 => Some (JObject (obj_set "p1Time" v acc), r4)
          | _ => None
          end).
  rewrite H. reflexivity.
Qed.

(** The last member, when its value is followed by the closing brace. *)
Lemma parse_members_p2Time f value v acc :
  parse_value f value = Some (v, "}"%string) ->
  parse_members (S f) (quote_json "p2Time" +:+ ":" +:+ value) acc =
    Some (JObject (obj_set "p2Time" v acc), EmptyString).
Proof.
  intros H.
  change (parse_members (S f) (quote_json "p2Time" +:+ ":" +:+ value) acc)
    with ('(v, r3) ← parse_value f value;
          match skip_ws r3 with
          | String "," r4 => parse_members f r4 (obj_set "p2Time" v acc)
          | String "}" r4 => Some (JObject (obj_set "p2Time" v acc), r4)
          | _ => None
          end).
  rewrite H. reflexivity.
Qed.

Lemma parse_value_object f members :
  parse_value (S f) ("{" +:+ quote_json "p1Time" +:+ members) =
    parse_members f (quote_json "p1Time" +:+ members) [].
Proof. reflexivity. Qed.

(** [JSON.parse] reads a record of two non-negative integers back. *)
Lemma JSON_parse_record (a b : N) :
  JSON_parse (record_text (dec_string a) (dec_string b)) =
    Normal (stateToSave (JInt (Z.of_N a)) (JInt (Z.of_N b))).
Proof.
  unfold JSON_parse, record_text.
  assert (Hfuel : exists f,
    (2 * String.length ("{" +:+ quote_json "p1Time" +:+ ":" +:+ dec_string a
        +:+ "," +:+ quote_json "p2Time" +:+ ":" +:+ dec_string b +:+ "}") + 2
     = S (S (S (S f))))%nat).
  { rewrite append_cons. cbn [String.length].
    match goal with
    | |- context [S (String.length ?x)] => exists (2 * String.length x)%nat
    end. lia. }
  destruct Hfuel as [f ->].
  rewrite parse_value_object.
  erewrite parse_members_p1Time by (apply parse_value_dec; reflexivity).
  erewrite parse_members_p2Time by (apply parse_value_dec; reflexivity).
  reflexivity.
Qed.

Lemma number_to_string_nonneg a :
  0 <= a -> number_to_string (int_number a) = dec_string (Z.to_N a).
Proof.
  intros Ha. unfold number_to_string, int_number. cbn [mant dexp].
  destruct (Z.ltb_spec a 0) as [?|_]; [lia|].
  rewrite append_nil_l. f_equal. lia.
Qed.

(** The text the save effect writes. *)
Lemma saved_text p1 p2 :
  JSON_stringify (stateToSave (JNumber p1) (JNumber p2)) =
    record_text (number_to_string p1) (number_to_string p2).
Proof.
  unfold stateToSave, record_text. cbn [JSON_stringify].
  by rewrite !append_assoc.
Qed.

Lemma or_zero_int a : or_zero (Some (JInt a)) = JInt a.
Proof.
  unfold or_zero, truthy, JInt, int_number. cbn [mant].
  destruct (Z.eqb_spec a 0) as [->|_]; reflexivity.
Qed.

(** The try block of the load effect reads back what the save effect
    wrote. *)
Lemma load_try_saved (a b : Z) (ls : gmap string string) :
  0 <= a -> 0 <= b ->
  load_try (saveEffect (JInt a) (JInt b) ls) = Normal (Some (JInt a, JInt b)).
Proof.
  intros Ha Hb. unfold load_try, saveEffect. rewrite lookup_insert_eq.
  assert (Htext : JSON_stringify (stateToSave (JInt a) (JInt b))
            = record_text (dec_string (Z.to_N a)) (dec_string (Z.to_N b))).
  { unfold JInt. by rewrite saved_text, !number_to_string_nonneg. }
  rewrite Htext.
  assert (Hne : String.eqb (record_text (dec_string (Z.to_N a))
                              (dec_string (Z.to_N b))) EmptyString = false)
    by reflexivity.
  rewrite Hne, JSON_parse_record. cbn [negb destructure_times stateToSave].
  cbn [js_get List.find fst snd String.eqb Ascii.eqb Bool.eqb fmap option_fmap option_map].
  rewrite !Z2N.id by done. by rewrite !or_zero_int.
Qed.

(** C6.  Saving two non-negative integers and loading them back gives
    exactly these two: the try block of the load effect reads them from
    the record the save effect wrote, the effect puts them into the
    state and leaves the record in place, and a component mounted on that
    storage starts with them. *)
Theorem save_then_load_round_trip (a b : Z) (s : TimerState)
    (ls : gmap string string) (supported : bool) :
  0 <= a -> 0 <= b ->
  load_try (saveEffect (JInt a) (JInt b) ls) = Normal (Some (JInt a, JInt b)) /\
  loadEffect s (saveEffect (JInt a) (JInt b) ls) =
    (mkState (JInt a) (JInt b) None, saveEffect (JInt a) (JInt b) ls) /\
  state (mount (saveEffect (JInt a) (JInt b) ls) supported) =
    mkState (JInt a) (JInt b) None.
Proof.
  intros Ha Hb. pose proof (load_try_saved a b ls Ha Hb) as H.
  split; [exact H|].
  assert (Hl : forall s', loadEffect s' (saveEffect (JInt a) (JInt b) ls) =
             (mkState (JInt a) (JInt b) None, saveEffect (JInt a) (JInt b) ls))
    by (intros s'; unfold loadEffect; by rewrite H).
  split; [apply Hl|]. by rewrite state_mount, Hl.
Qed.

Lemma save_then_load_round_trip_witness :
  load_try (saveEffect (JInt 12) (JInt 7) ∅) = Normal (Some (JInt 12, JInt 7)).
Proof.
  apply (save_then_load_round_trip 12 7 initialState ∅ true); lia.
Defined.

(** The records the component writes from non-negative integers are
    sound for the next load. *)
Lemma saved_record_loads_nonneg_ints (a b : Z) (ls : gmap string string) :
  0 <= a -> 0 <= b ->
  loads_nonneg_ints (saveEffect (JInt a) (JInt b) ls) = true.
Proof.
  intros Ha Hb. unfold loads_nonneg_ints.
  rewrite (load_try_saved a b ls Ha Hb).
  simpl. apply andb_true_iff. split; lia.
Qed.

(** ** Time adjustment *)

(** C8.  With 30 and 90 elapsed seconds the adjustments are 3/2 and 1/2,
    shown as 1.50 and 0.50; with no time elapsed the total is not
    positive, no division takes place and both adjustments are 1, shown
    as 1.00. *)
Theorem adjustment_formula_check :
  (player1Adjustment (int_number 30) (int_number 90) == 3 # 2)%Q /\
  (player2Adjustment (int_number 30) (int_number 90) == 1 # 2)%Q /\
  toFixed2 (player1Adjustment (int_number 30) (int_number 90)) = "1.50"%string /\
  toFixed2 (player2Adjustment (int_number 30) (int_number 90)) = "0.50"%string /\
  player1Adjustment (int_number 0) (int_number 0) = 1%Q /\
  player2Adjustment (int_number 0) (int_number 0) = 1%Q /\
  toFixed2 (player1Adjustment (int_number 0) (int_number 0)) = "1.00"%string /\
  toFixed2 (player2Adjustment (int_number 0) (int_number 0)) = "1.00"%string.
Proof. repeat split; vm_compute; reflexivity. Qed.

(** Whenever the total is not positive the guard skips the division. *)
Lemma adjustment_without_time p1 p2 :
  (totalTime p1 p2 <= 0)%Q ->
  player1Adjustment p1 p2 = 1%Q /\ player2Adjustment p1 p2 = 1%Q.
Proof.
  intros H. unfold player1Adjustment, player2Adjustment.
  destruct (0 ?= totalTime p1 p2)%Q eqn:E; try done.
  apply Qlt_alt in E. apply Qle_not_lt in H. done.
Qed.

(** ** The wake lock *)

(** The guard of [requestWakeLock]: while the ref holds a sentinel that
    is not released, a request attempt changes nothing. *)
Lemma requestWakeLock_skips_when_held w :
  holdsLock w = true -> requestWakeLock w = w.
Proof. intros H. unfold requestWakeLock. by rewrite H. Qed.

(** Without such a sentinel it sends one request and touches nothing
    else. *)
Lemma requestWakeLock_requests_otherwise w :
  holdsLock w = false ->
  pending (requestWakeLock w) = S (pending w) /\
  wakeLockRef (requestWakeLock w) = wakeLockRef w /\
  live (requestWakeLock w) = live w.
Proof. intros H. unfold requestWakeLock. by rewrite H. Qed.

(** The guard of [releaseWakeLock]: with no unreleased sentinel in the
    ref a release changes nothing, so releasing twice is releasing
    once. *)
Lemma releaseWakeLock_noop_when_not_held w :
  holdsLock w = false -> releaseWakeLock w = w.
Proof.
  unfold holdsLock, releaseWakeLock.
  destruct (wakeLockRef w) as [id|]; [|done]. by intros ->.
Qed.

Lemma releaseWakeLock_releases w :
  holdsLock (releaseWakeLock w) = false.
Proof.
  unfold releaseWakeLock, holdsLock.
  destruct (wakeLockRef w) as [id|] eqn:E; [|by rewrite E].
  destruct (bool_decide (id ∈ live w)) eqn:D; [done|].
  by rewrite E, D.
Qed.

Lemma releaseWakeLock_idempotent w :
  releaseWakeLock (releaseWakeLock w) = releaseWakeLock w.
Proof.
  apply releaseWakeLock_noop_when_not_held, releaseWakeLock_releases.
Qed.

(** C9, where the code departs from it.  The guard of
    [requestWakeLock] looks at the ref, and the ref is filled only when
    a request settles; a request still in flight is not covered by it.
    Two taps before the first request settles send two requests; when
    both are granted two sentinels are live at a time, of which the ref
    holds the second.  A pause then releases that one: the first is
    live but no longer held. *)
Remark requests_in_flight_are_not_guarded :
  let trace := [Tap player1; Tap player2; LockGranted; LockGranted] in
  (fun w => (pending w, wakeLockRef w)) <$>
      run [Tap player1; Tap player2] (mount ∅ true) = Some (2%nat, None) /\
  (fun w => (size (live w), heldSentinels w, activePlayer (state w))) <$>
      run trace (mount ∅ true) = Some (2%nat, [1%nat], Some player1) /\
  (fun w => (elements (live w), heldSentinels w, activePlayer (state w))) <$>
      run (trace ++ [PauseClick]) (mount ∅ true) = Some ([0%nat], [], None).
Proof. repeat split; vm_compute; reflexivity. Qed.

(** * Further properties of the component *)

(** ** The displayed time *)

Lemma formatTime_nonneg n :
  0 <= n ->
  formatTime (int_number n) =
    pad_left 2 (dec_string (Z.to_N (n / 60))) +:+ ":" +:+
    pad_left 2 (dec_string (Z.to_N (n mod 60))).
Proof.
  intros Hn. unfold formatTime. cbn [mant dexp int_number strip_zeros].
  change (60 * 10 ^ Z.of_nat 0) with 60.
  rewrite Z.rem_mod_nonneg by lia.
  change (Num (n mod 60) 0) with (int_number (n mod 60)).
  rewrite !number_to_string_nonneg; [done | |].
  - apply Z.mod_pos_bound. lia.
  - apply Z.div_pos; lia.
Qed.

Lemma span_digits_zeros k (s rest : string) ds :
  span_digits (s +:+ rest) = (ds, rest) ->
  span_digits ((zeros k +:+ s) +:+ rest) = (zeros k +:+ ds, rest).
Proof.
  intros H. induction k as [|k IH]; [done|].
  cbn [zeros]. rewrite !append_cons. cbn [span_digits].
  change (is_digit "0") with true. cbv beta iota. by rewrite IH.
Qed.

Lemma span_digits_padded k a rest :
  ends_number rest = true ->
  span_digits (pad_left k (dec_string a) +:+ rest)
    = (pad_left k (dec_string a), rest).
Proof.
  intros Hr. unfold pad_left. apply span_digits_zeros.
  unfold dec_string. by apply span_digits_uint.
Qed.

Lemma digits_value_zeros k s : digits_value (zeros k +:+ s) = digits_value s.
Proof.
  induction k as [|k IH]; [done|].
  cbn [zeros]. rewrite append_cons. unfold digits_value in *.
  cbn [NilEmpty.uint_of_string]. unfold uint_of_char.
  change (Ascii.eqb "0" "0") with true.
  destruct (NilEmpty.uint_of_string (zeros k +:+ s)) as [u|] eqn:E;
    destruct (NilEmpty.uint_of_string s) as [u'|] eqn:E'; simpl in *; try done.
Qed.

Lemma digits_value_padded k a : digits_value (pad_left k (dec_string a)) = a.
Proof.
  unfold pad_left. rewrite digits_value_zeros. unfold dec_string.
  by rewrite digits_value_uint, DecimalN.Unsigned.of_to.
Qed.

Lemma length_append (s t : string) :
  String.length (s +:+ t) = (String.length s + String.length t)%nat.
Proof.
  induction s as [|c s IH]; [done|]. rewrite append_cons. simpl. by rewrite IH.
Qed.

Lemma length_zeros k : String.length (zeros k) = k.
Proof. induction k as [|k IH]; simpl; congruence. Qed.

Lemma length_pad_left k s :
  String.length (pad_left k s) = Nat.max k (String.length s).
Proof. unfold pad_left. rewrite length_append, length_zeros. lia. Qed.

Lemma dec_string_short a :
  (a < 100)%N -> (String.length (dec_string a) <= 2)%nat.
Proof.
  intros Ha.
  assert (H : forallb (fun k => Nat.leb (String.length (dec_string (N.of_nat k))) 2)
                (seq 0 100) = true) by (vm_compute; reflexivity).
  rewrite forallb_forall in H. specialize (H (N.to_nat a)).
  rewrite N2Nat.id in H. apply Nat.leb_le, H, in_seq. lia.
Qed.

(** What the display of a non-negative whole number of seconds is made
    of. *)
Lemma formatTime_fields n :
  0 <= n ->
  let mm := pad_left 2 (dec_string (Z.to_N (n / 60))) in
  let ss := pad_left 2 (dec_string (Z.to_N (n mod 60))) in
  formatTime (int_number n) = mm +:+ ":" +:+ ss /\
  span_digits (formatTime (int_number n)) = (mm, ":" +:+ ss)%string /\
  span_digits ss = (ss, EmptyString) /\
  String.length ss = 2%nat /\
  Z.of_N (digits_value mm) = n / 60 /\
  Z.of_N (digits_value ss) = n mod 60.
Proof.
  intros Hn mm ss.
  pose proof (Z.mod_pos_bound n 60 ltac:(lia)) as Hs.
  pose proof (Z.div_pos n 60 Hn ltac:(lia)) as Hm.
  split; [by apply formatTime_nonneg|]. split; [|split; [|split; [|split]]].
  - rewrite formatTime_nonneg by done. by apply span_digits_padded.
  - pose proof (span_digits_padded 2 (Z.to_N (n mod 60)) EmptyString eq_refl) as H.
    by rewrite append_nil_r in H.
  - unfold ss. rewrite length_pad_left.
    pose proof (dec_string_short (Z.to_N (n mod 60)) ltac:(lia)). lia.
  - unfold mm. rewrite digits_value_padded. lia.
  - unfold ss. rewrite digits_value_padded. lia.
Qed.

(** X1.  The display of a number of seconds that is a non-negative
    safe integer reads back: it is a run of at least two digits, a colon
    and exactly two digits; the second number is below 60 and sixty
    times the first plus the second is the number of seconds shown. *)
Theorem formatTime_reads_back n :
  0 <= n -> isSafeInteger n = true ->
  exists mm ss,
    formatTime (int_number n) = mm +:+ ":" +:+ ss /\
    span_digits mm = (mm, EmptyString) /\ (2 <= String.length mm)%nat /\
    span_digits ss = (ss, EmptyString) /\ String.length ss = 2%nat /\
    Z.of_N (digits_value ss) < 60 /\
    60 * Z.of_N (digits_value mm) + Z.of_N (digits_value ss) = n.
Proof.
  intros Hn _.
  destruct (formatTime_fields n Hn) as (H1 & H2 & H3 & H4 & H5 & H6).
  eexists _, _. split; [exact H1|].
  pose proof (Z.mod_pos_bound n 60 ltac:(lia)) as Hs.
  repeat split.
  - pose proof (span_digits_padded 2 (Z.to_N (n / 60)) EmptyString eq_refl) as H.
    by rewrite append_nil_r in H.
  - rewrite length_pad_left. lia.
  - exact H3.
  - exact H4.
  - lia.
  - rewrite H5, H6. pose proof (Z.div_mod n 60 ltac:(lia)). lia.
Qed.

Lemma formatTime_reads_back_witness :
  exists mm ss,
    formatTime (int_number 3725) = mm +:+ ":" +:+ ss /\
    60 * Z.of_N (digits_value mm) + Z.of_N (digits_value ss) = 3725.
Proof.
  destruct (formatTime_reads_back 3725 ltac:(lia) eq_refl)
    as (mm & ss & H & _ & _ & _ & _ & _ & Hv).
  exists mm, ss. split; assumption.
Defined.

(** X2.  Two different non-negative whole numbers of seconds are never
    displayed alike. *)
Theorem formatTime_injective a b :
  0 <= a -> 0 <= b -> a <> b ->
  formatTime (int_number a) <> formatTime (int_number b).
Proof.
  intros Ha Hb Hne H. apply Hne.
  destruct (formatTime_fields a Ha) as (_ & Ha2 & _ & _ & Ha5 & Ha6).
  destruct (formatTime_fields b Hb) as (_ & Hb2 & _ & _ & Hb5 & Hb6).
  rewrite H, Hb2 in Ha2. injection Ha2 as Hmm Hss.
  rewrite <- Hmm in Ha5. rewrite Hb5 in Ha5.
  assert (Hs : b mod 60 = a mod 60).
  { rewrite <- Ha6, <- Hb6. f_equal. f_equal.
    by rewrite !append_nil_l in Hss. }
  rewrite (Z.div_mod a 60), (Z.div_mod b 60) by lia. lia.
Qed.

Lemma formatTime_injective_witness :
  formatTime (int_number 119) <> formatTime (int_number 659).
Proof. apply (formatTime_injective 119 659); lia. Defined.

(** X3.  Up to 99 minutes and 59 seconds the display is exactly five
    characters wide, and it is never narrower. *)
Theorem formatTime_width n :
  0 <= n ->
  (5 <= String.length (formatTime (int_number n)))%nat /\
  (n < 6000 -> String.length (formatTime (int_number n)) = 5%nat).
Proof.
  intros Hn. rewrite formatTime_nonneg by done.
  rewrite !length_append, !length_pad_left. simpl.
  pose proof (Z.mod_pos_bound n 60 ltac:(lia)) as Hs.
  pose proof (dec_string_short (Z.to_N (n mod 60)) ltac:(lia)).
  split; [lia|]. intros Hlt.
  assert (n / 60 < 100) by (apply Z.div_lt_upper_bound; lia).
  pose proof (Z.div_pos n 60 Hn ltac:(lia)).
  pose proof (dec_string_short (Z.to_N (n / 60)) ltac:(lia)). lia.
Qed.

Lemma formatTime_width_witness :
  String.length (formatTime (int_number 5999)) = 5%nat.
Proof. apply (formatTime_width 5999); lia. Defined.

(** ** The time adjustment *)

Lemma adjustment_cases p1 p2 :
  ((0 < totalTime p1 p2)%Q /\
   player1Adjustment p1 p2 = (2 * number_to_Q p2 / totalTime p1 p2)%Q /\
   player2Adjustment p1 p2 = (2 * number_to_Q p1 / totalTime p1 p2)%Q) \/
  ((totalTime p1 p2 <= 0)%Q /\
   player1Adjustment p1 p2 = 1%Q /\ player2Adjustment p1 p2 = 1%Q).
Proof.
  unfold player1Adjustment, player2Adjustment.
  destruct (0 ?= totalTime p1 p2)%Q eqn:E.
  - right. apply Qeq_alt in E. split; [rewrite <- E; apply Qle_refl | done].
  - left. apply Qlt_alt in E. done.
  - right. apply Qgt_alt in E. split; [by apply Qlt_le_weak | done].
Qed.

(** Once time has been used, a player's adjustment compares with 1 as
    the opponent's time compares with the player's. *)
Lemma adjustment_compares_exact p1 p2 :
  (0 < totalTime p1 p2)%Q ->
  ((1 < player1Adjustment p1 p2)%Q <-> (number_to_Q p1 < number_to_Q p2)%Q) /\
  ((player1Adjustment p1 p2 == 1)%Q <-> (number_to_Q p1 == number_to_Q p2)%Q) /\
  ((player1Adjustment p1 p2 < 1)%Q <-> (number_to_Q p2 < number_to_Q p1)%Q).
Proof.
  intros Ht.
  destruct (adjustment_cases p1 p2) as [(_ & -> & _) | (Hle & _)];
    [|by apply Qle_not_lt in Hle].
  unfold totalTime in *.
  set (a := number_to_Q p1) in *. set (b := number_to_Q p2) in *.
  assert (Hq : (2 * b / (a + b) * (a + b) == 2 * b)%Q).
  { field. intros H. rewrite H in Ht. by apply Qlt_irrefl in Ht. }
  set (q := (2 * b / (a + b))%Q) in *.
  repeat split; intros H; nra.
Qed.

Lemma adjustment_bounds_exact p1 p2 :
  (0 <= number_to_Q p1)%Q -> (0 <= number_to_Q p2)%Q ->
  (0 <= player1Adjustment p1 p2 <= 2)%Q /\
  (0 <= player2Adjustment p1 p2 <= 2)%Q.
Proof.
  intros Ha Hb.
  destruct (adjustment_cases p1 p2) as [(Ht & -> & ->) | (_ & -> & ->)];
    [|split; split; discriminate].
  unfold totalTime in *.
  set (a := number_to_Q p1) in *. set (b := number_to_Q p2) in *.
  assert (Hn : ~ (a + b == 0)%Q)
    by (intros H; rewrite H in Ht; by apply Qlt_irrefl in Ht).
  assert (Hq1 : (2 * b / (a + b) * (a + b) == 2 * b)%Q) by (field; exact Hn).
  assert (Hq2 : (2 * a / (a + b) * (a + b) == 2 * a)%Q) by (field; exact Hn).
  set (q1 := (2 * b / (a + b))%Q) in *. set (q2 := (2 * a / (a + b))%Q) in *.
  repeat split; nra.
Qed.

Lemma number_to_Q_int a : (number_to_Q (int_number a) == inject_Z a)%Q.
Proof.
  unfold number_to_Q, int_number. cbn [mant dexp].
  change (inject_Z (10 ^ Z.of_nat 0)) with 1%Q. field.
Qed.

(** X5.  For two times in whole seconds, not negative, whose sum is
    positive and a safe integer: a player's adjustment is above 1
    exactly when the opponent has used more time, 1 exactly when both
    have used the same, and below 1 exactly when the player has used
    more. *)
Theorem adjustment_compares_times (a b : Z) :
  0 <= a -> 0 <= b -> 0 < a + b -> isSafeInteger (a + b) = true ->
  ((1 < player1Adjustment (int_number a) (int_number b))%Q <-> a < b) /\
  ((player1Adjustment (int_number a) (int_number b) == 1)%Q <-> a = b) /\
  ((player1Adjustment (int_number a) (int_number b) < 1)%Q <-> b < a).
Proof.
  intros Ha Hb Hab _.
  assert (Ht : (0 < totalTime (int_number a) (int_number b))%Q).
  { unfold totalTime. rewrite !number_to_Q_int, <- inject_Z_plus.
    change 0%Q with (inject_Z 0). by rewrite <- Zlt_Qlt. }
  destruct (adjustment_compares_exact _ _ Ht) as (H1 & H2 & H3).
  rewrite !number_to_Q_int in H1, H2, H3.
  rewrite <- Zlt_Qlt in H1, H3. rewrite inject_Z_injective in H2.
  done.
Qed.

(** X6.  For two times in whole seconds, not negative, whose sum is a
    safe integer, both adjustments lie between 0 and 2. *)
Theorem adjustment_bounds (a b : Z) :
  0 <= a -> 0 <= b -> isSafeInteger (a + b) = true ->
  (0 <= player1Adjustment (int_number a) (int_number b) <= 2)%Q /\
  (0 <= player2Adjustment (int_number a) (int_number b) <= 2)%Q.
Proof.
  intros Ha Hb _. apply adjustment_bounds_exact;
    rewrite number_to_Q_int; change 0%Q with (inject_Z 0);
    by rewrite <- Zle_Qle.
Qed.

Lemma adjustment_bounds_witness :
  (0 <= player1Adjustment (int_number 30) (int_number 90) <= 2)%Q /\
  (0 <= player2Adjustment (int_number 30) (int_number 90) <= 2)%Q.
Proof. apply (adjustment_bounds 30 90); [lia | lia | reflexivity]. Defined.

Lemma adjustment_compares_times_witness :
  (1 < player1Adjustment (int_number 30) (int_number 90))%Q /\
  ~ (player1Adjustment (int_number 90) (int_number 30) == 1)%Q.
Proof.
  split.
  - apply (proj1 (adjustment_compares_times 30 90 ltac:(lia) ltac:(lia)
                    ltac:(lia) eq_refl)). lia.
  - intros H.
    apply (proj1 (proj2 (adjustment_compares_times 90 30 ltac:(lia) ltac:(lia)
                           ltac:(lia) eq_refl))) in H. lia.
Defined.

(** ** The stored record follows the state *)

Lemma number_eqb_eq a b : number_eqb a b = true -> a = b.
Proof.
  destruct a as [m d], b as [m' d']. unfold number_eqb. simpl.
  intros [H1 H2]%andb_true_iff.
  apply Z.eqb_eq in H1. apply Nat.eqb_eq in H2. by subst.
Qed.

Lemma same_value_eq (a b : JSValue) : same_value a b = true -> a = b.
Proof.
  revert a b. fix IHv 1. intros a b.
  destruct a as [|x|x|x|xs|xs], b as [|y|y|y|ys|ys]; simpl; try discriminate.
  - done.
  - intros H. apply Bool.eqb_prop in H. by subst.
  - intros H. apply number_eqb_eq in H. by subst.
  - intros H. apply String.eqb_eq in H. by subst.
  - intros H. f_equal. revert ys H.
    induction xs as [|x l IH]; intros [|y r] H; try discriminate; [done|].
    apply andb_true_iff in H as [H1 H2].
    f_equal; [by apply IHv | by apply IH].
  - intros H. f_equal. revert ys H.
    induction xs as [|[k x] l IH]; intros [|[k' y] r] H; try discriminate; [done|].
    apply andb_true_iff in H as [H1 H2].
    apply andb_true_iff in H1 as [H0 H1].
    apply String.eqb_eq in H0. subst.
    f_equal; [f_equal; by apply IHv | by apply IH].
Qed.

Lemma same_times_eq a b :
  same_times a b = true ->
  player1Time a = player1Time b /\ player2Time a = player2Time b.
Proof.
  unfold same_times. intros [H1 H2]%andb_true_iff.
  split; by apply same_value_eq.
Qed.

Lemma storage_mount ls supported :
  localStorage (mount ls supported) =
    let '(loaded, ls1) := loadEffect initialState ls in
    if same_times initialState loaded
    then saveEffect (JInt 0) (JInt 0) ls1
    else saveEffect (player1Time loaded) (player2Time loaded)
           (saveEffect (JInt 0) (JInt 0) ls1).
Proof.
  unfold mount. simpl.
  destruct (loadEffect initialState ls) as [loaded ls1].
  rewrite storage_commit. simpl. by rewrite storage_wakeLockEffect.
Qed.

(** A commit keeps the record in step with the times, whatever it finds
    in the storage when a time changed, and provided the record matched
    the previous times when none did. *)
Lemma mirrors_commit prev w :
  (same_times prev (state w) = true ->
   localStorage w !! storageKey =
     Some (JSON_stringify (stateToSave (player1Time prev) (player2Time prev))) \/
   (localStorage w !! storageKey = None /\
    player1Time prev = JInt 0 /\ player2Time prev = JInt 0)) ->
  mirrors (commit prev w).
Proof.
  intros H. unfold mirrors. rewrite state_commit, storage_commit.
  destruct (same_times prev (state w)) eqn:E.
  - destruct (same_times_eq _ _ E) as [<- <-]. by apply H.
  - left. unfold saveEffect. by rewrite lookup_insert_eq.
Qed.

Lemma storage_mirrors_state ls supported w :
  reachable ls supported w -> mirrors w.
Proof.
  induction 1 as [|e w w' Hr IH Hs].
  - unfold mirrors. rewrite state_mount, storage_mount.
    destruct (loadEffect initialState ls) as [loaded ls1]. simpl.
    destruct (same_times initialState loaded) eqn:E.
    + destruct (same_times_eq _ _ E) as [<- <-]. left.
      unfold saveEffect. by rewrite lookup_insert_eq.
    + left. unfold saveEffect. by rewrite lookup_insert_eq.
  - destruct e; simpl in Hs; simplify_eq.
    + apply mirrors_commit. intros _. exact IH.
    + apply mirrors_commit. intros _. exact IH.
    + apply mirrors_commit. simpl. intros E.
      destruct (same_times_eq _ _ E) as [E1 E2]. simpl in E1, E2.
      right. by rewrite lookup_delete_eq.
    + case_bool_decide; [|done]. simplify_eq.
      apply mirrors_commit. intros _. exact IH.
    + unfold mirrors.
      destruct (dispatchVisibilityChange_frame visible w) as (-> & -> & _).
      exact IH.
    + destruct (Nat.ltb 0 (pending w)); [|done]. by simplify_eq.
    + destruct (Nat.ltb 0 (pending w)); [|done]. by simplify_eq.
    + case_bool_decide; [|done]. by simplify_eq.
Qed.



Lemma load_try_lookup ls ls' :
  ls !! storageKey = ls' !! storageKey -> load_try ls = load_try ls'.
Proof. intros H. unfold load_try. by rewrite H. Qed.

(** ** Events that change nothing *)

Lemma commit_same_turn prev w :
  activePlayer prev = activePlayer (state w) ->
  commit prev w =
    if same_times prev (state w) then w
    else with_storage
           (saveEffect (player1Time (state w)) (player2Time (state w))
              (localStorage w)) w.
Proof.
  intros H. unfold commit.
  by rewrite (proj2 (activePlayer_eqb_eq _ _) H).
Qed.

Lemma commit_unchanged w : commit (state w) w = w.
Proof. by rewrite commit_same_turn, same_times_refl. Qed.

(** X8.  A pause on a paused clock, and a tap by the player whose
    opponent is already on the move, leave the whole page as it is: no
    write to the storage, no wake-lock call, the timers untouched. *)
Theorem repeated_pause_or_tap_changes_nothing (w : World) (X : Player) :
  (activePlayer (state w) = None -> step PauseClick w = Some w) /\
  (activePlayer (state w) = Some (opponent X) -> step (Tap X) w = Some w).
Proof.
  split; intros H; simpl; f_equal.
  - assert (handlePause w = w) as Hw
      by (destruct w as [[p1 p2 a] ? ? ? ? ? ? ? ?]; simpl in *; by subst).
    rewrite Hw. apply commit_unchanged.
  - assert (handlePlayerAreaClick X w = w) as Hw
      by (destruct w as [[p1 p2 a] ? ? ? ? ? ? ? ?]; simpl in *; by subst).
    rewrite Hw. apply commit_unchanged.
Qed.

Lemma repeated_pause_or_tap_changes_nothing_witness :
  step PauseClick (mount ∅ true) = Some (mount ∅ true).
Proof.
  apply (proj1 (repeated_pause_or_tap_changes_nothing (mount ∅ true) player1)).
  reflexivity.
Defined.

(** ** Ticks add up *)

Lemma isSafeInteger_spec z :
  isSafeInteger z = true <-> - 2 ^ 53 < z < 2 ^ 53.
Proof. unfold isSafeInteger. rewrite Z.ltb_lt. lia. Qed.

Lemma tick_step ls supported w p :
  reachable ls supported w ->
  activePlayer (state w) = Some p ->
  exists w', step (IntervalFires p) w = Some w' /\
    reachable ls supported w' /\
    state w' = intervalCallback p (state w).
Proof.
  intros Hr Hp.
  assert (Hs : step (IntervalFires p) w =
            Some (commit (state w) (with_state (intervalCallback p (state w)) w))).
  { simpl. rewrite bool_decide_eq_true_2; [done|].
    by apply (armed_timer _ _ _ _ Hr). }
  eexists. split; [exact Hs|]. split; [by eapply reach_step|].
  by rewrite state_commit.
Qed.

(** X9.  Ticks add up: while a player is on the move with a time that
    is a safe integer [a], the timer of that player can fire [n] times
    in a row, and as long as [a + n] is a safe integer too these firings
    make the time [a + n] and leave the turn and the opponent's time
    alone. *)
Theorem ticks_accumulate ls supported w p (n : nat) (a : Z) :
  reachable ls supported w ->
  activePlayer (state w) = Some p ->
  timeOf p (state w) = JInt a ->
  isSafeInteger a = true -> isSafeInteger (a + Z.of_nat n) = true ->
  exists w', run (repeat (IntervalFires p) n) w = Some w' /\
    activePlayer (state w') = Some p /\
    timeOf p (state w') = JInt (a + Z.of_nat n) /\
    timeOf (opponent p) (state w') = timeOf (opponent p) (state w).
Proof.
  revert w a. induction n as [|n IH]; intros w a Hr Hp Hta Ha Han.
  - exists w. repeat split; try done.
    by replace (a + Z.of_nat 0) with a by lia.
  - destruct (tick_step _ _ _ _ Hr Hp) as (w1 & Hs & Hr1 & Hst).
    assert (Hp1 : activePlayer (state w1) = Some p)
      by (rewrite Hst; by destruct p).
    assert (Ht : timeOf p (state w1) = JInt (a + 1))
      by (rewrite Hst; destruct p; simpl in *; by rewrite Hta).
    assert (Ho : timeOf (opponent p) (state w1) = timeOf (opponent p) (state w))
      by (rewrite Hst; by destruct p).
    apply isSafeInteger_spec in Ha, Han.
    destruct (IH w1 (a + 1) Hr1 Hp1 Ht) as (w' & Hrun & Hact & Htime & Hopp).
    + apply isSafeInteger_spec. lia.
    + apply isSafeInteger_spec. lia.
    + exists w'. split; [cbn [repeat run]; by rewrite Hs|].
      split; [done|]. split; [|by rewrite Hopp].
      rewrite Htime.
      by replace (a + 1 + Z.of_nat n) with (a + Z.of_nat (S n)) by lia.
Qed.

Lemma ticks_accumulate_witness :
  exists w', run (repeat (IntervalFires player2) 3)
               (tapped player1 (mount (stored (record_text "12" "7")) true))
               = Some w' /\
    timeOf player2 (state w') = JInt 10 /\
    timeOf player1 (state w') = JInt 12.
Proof.
  destruct (ticks_accumulate (stored (record_text "12" "7")) true
              (tapped player1 (mount (stored (record_text "12" "7")) true))
              player2 3 7) as (w' & Hrun & _ & Htime & Hopp).
  - apply (reach_step _ _ (Tap player1) (mount (stored (record_text "12" "7")) true));
      [apply reach_mount | reflexivity].
  - vm_compute. reflexivity.
  - vm_compute. reflexivity.
  - reflexivity.
  - reflexivity.
  - exists w'. split; [exact Hrun|]. split; [exact Htime|].
    etransitivity; [exact Hopp | vm_compute; reflexivity].
Defined.

(** ** The wake lock on a page without the API *)

Lemma supported_requestWakeLock w :
  wakeLockSupported (requestWakeLock w) = wakeLockSupported w.
Proof. unfold requestWakeLock. by destruct (holdsLock w). Qed.

Lemma supported_releaseWakeLock w :
  wakeLockSupported (releaseWakeLock w) = wakeLockSupported w.
Proof. unfold releaseWakeLock. by repeat case_match. Qed.

Lemma supported_wakeLockEffect w :
  wakeLockSupported (wakeLockEffect w) = wakeLockSupported w.
Proof.
  unfold wakeLockEffect. destruct (wakeLockSupported w) eqn:E; [|done].
  destruct (activePlayer (state w)); simpl;
    by rewrite ?supported_requestWakeLock, ?supported_releaseWakeLock.
Qed.

Lemma supported_wakeLockCleanup a w :
  wakeLockSupported (wakeLockCleanup a w) = wakeLockSupported w.
Proof.
  unfold wakeLockCleanup. destruct (wakeLockSupported w) eqn:E; [|done].
  by rewrite supported_releaseWakeLock.
Qed.

Lemma supported_tickEffect w :
  wakeLockSupported (tickEffect w) = wakeLockSupported w.
Proof. unfold tickEffect. by case_match. Qed.

Lemma supported_tickCleanup a w :
  wakeLockSupported (tickCleanup a w) = wakeLockSupported w.
Proof. unfold tickCleanup. by case_match. Qed.

Lemma supported_commit prev w :
  wakeLockSupported (commit prev w) = wakeLockSupported w.
Proof.
  unfold commit.
  destruct (negb _); destruct (same_times _ _); simpl;
    rewrite ?supported_wakeLockEffect, ?supported_tickEffect; simpl;
    rewrite ?supported_wakeLockCleanup, ?supported_tickCleanup; done.
Qed.

Lemma supported_mount ls supported :
  wakeLockSupported (mount ls supported) = supported.
Proof.
  unfold mount. simpl. destruct (loadEffect initialState ls) as [loaded ls1].
  rewrite supported_commit. simpl. by rewrite supported_wakeLockEffect.
Qed.

Lemma supported_step e w w' :
  step e w = Some w' -> wakeLockSupported w' = wakeLockSupported w.
Proof.
  destruct e; simpl; intros Hs; repeat case_match; simplify_eq;
    rewrite ?supported_commit; try done.
  apply dispatchVisibilityChange_frame.
Qed.

Lemma supported_reachable ls supported w :
  reachable ls supported w -> wakeLockSupported w = supported.
Proof.
  induction 1 as [|e w w' Hr IH Hs]; [apply supported_mount|].
  by rewrite (supported_step _ _ _ Hs).
Qed.

(** Without the API the commit is that of the tick and save effects. *)
Lemma commit_unsupported prev w :
  wakeLockSupported w = false ->
  visibilityListeners (commit prev w) = visibilityListeners w /\
  wakeLockRef (commit prev w) = wakeLockRef w /\
  live (commit prev w) = live w /\
  created (commit prev w) = created w /\
  pending (commit prev w) = pending w.
Proof.
  intros H. destruct w as [s st i sup l ref lv cr pd]. simpl in H. subst sup.
  unfold commit, wakeLockEffect, wakeLockCleanup, tickEffect, tickCleanup.
  simpl.
  destruct (negb _); destruct (same_times _ _);
    destruct (activePlayer prev); simpl;
    destruct (activePlayer s); done.
Qed.

Lemma unsupported_idle ls w :
  reachable ls false w ->
  visibilityListeners w = [] /\ wakeLockRef w = None /\
  live w = ∅ /\ pending w = 0%nat.
Proof.
  induction 1 as [|e w w' Hr IH Hs].
  - pose proof (supported_mount ls false) as Hsup.
    unfold mount in *. simpl in *.
    destruct (loadEffect initialState ls) as [loaded ls1].
    rewrite supported_commit in Hsup.
    destruct (commit_unsupported initialState
      (with_state loaded
         (wakeLockEffect (tickEffect (with_storage
            (saveEffect (JInt 0) (JInt 0) ls1) (blank ls false)))))
      Hsup) as (-> & -> & -> & _ & ->).
    done.
  - pose proof (supported_reachable _ _ _ Hr) as Hw.
    destruct IH as (Hl & Href & Hlive & Hp).
    destruct e; simpl in Hs; simplify_eq;
      try (match goal with
           | |- context [commit ?prev ?x] =>
               destruct (commit_unsupported prev x Hw) as (-> & -> & -> & _ & ->)
           end; done).
    + case_bool_decide; [|done]. simplify_eq.
      match goal with
      | |- context [commit ?prev ?x] =>
          destruct (commit_unsupported prev x Hw) as (-> & -> & -> & _ & ->)
      end; done.
    + unfold dispatchVisibilityChange. by rewrite Hl.
    + by rewrite Hp in Hs.
    + by rewrite Hp in Hs.
    + rewrite Hlive in Hs. by case_bool_decide.
Qed.



(** ** The visibility listener *)

Lemma listeners_requestWakeLock w :
  visibilityListeners (requestWakeLock w) = visibilityListeners w.
Proof. unfold requestWakeLock. by destruct (holdsLock w). Qed.

Lemma listeners_releaseWakeLock w :
  visibilityListeners (releaseWakeLock w) = visibilityListeners w.
Proof. unfold releaseWakeLock. by repeat case_match. Qed.

(** The effect adds its listener to those registered. *)
Lemma listeners_wakeLockEffect w :
  wakeLockSupported w = true ->
  visibilityListeners (wakeLockEffect w) =
    visibilityListeners w ++ [activePlayer (state w)].
Proof.
  intros H. unfold wakeLockEffect. rewrite H.
  destruct (activePlayer (state w)); simpl;
    by rewrite ?listeners_requestWakeLock, ?listeners_releaseWakeLock.
Qed.

(** The cleanup removes the listener of the render it belongs to. *)
Lemma listeners_wakeLockCleanup a w :
  wakeLockSupported w = true ->
  visibilityListeners (wakeLockCleanup a w) =
    remove_first a (visibilityListeners w).
Proof.
  intros H. unfold wakeLockCleanup. rewrite H.
  by rewrite listeners_releaseWakeLock.
Qed.

Lemma listeners_tickEffect w :
  visibilityListeners (tickEffect w) = visibilityListeners w.
Proof. unfold tickEffect. by case_match. Qed.

Lemma listeners_tickCleanup a w :
  visibilityListeners (tickCleanup a w) = visibilityListeners w.
Proof. unfold tickCleanup. by case_match. Qed.

(** After a commit the one listener registered is that of the latest
    render, provided that held before the state change. *)
Lemma listeners_commit prev w :
  wakeLockSupported w = true ->
  visibilityListeners w = [activePlayer prev] ->
  visibilityListeners (commit prev w) = [activePlayer (state w)].
Proof.
  intros Hsup Hl. unfold commit.
  destruct (activePlayer_eqb (activePlayer prev) (activePlayer (state w))) eqn:E;
    simpl.
  - apply activePlayer_eqb_eq in E. rewrite <- E. by case_match.
  - assert (Hc : visibilityListeners
              (wakeLockCleanup (activePlayer prev)
                 (tickCleanup (activePlayer prev) w)) = []).
    { rewrite listeners_wakeLockCleanup
        by (by rewrite supported_tickCleanup).
      rewrite listeners_tickCleanup, Hl. apply remove_first_singleton. }
    destruct (same_times prev (state w));
      rewrite listeners_wakeLockEffect; simpl;
      rewrite ?listeners_tickEffect, ?state_tickEffect, ?supported_tickEffect;
      simpl;
      rewrite ?Hc, ?state_wakeLockCleanup, ?state_tickCleanup,
        ?supported_wakeLockCleanup, ?supported_tickCleanup; done.
Qed.

Lemma listeners_follow_activePlayer ls w :
  reachable ls true w ->
  visibilityListeners w = [activePlayer (state w)].
Proof.
  induction 1 as [|e w w' Hr IH Hs].
  - unfold mount. simpl.
    destruct (loadEffect initialState ls) as [loaded ls1].
    rewrite state_commit. by apply listeners_commit.
  - pose proof (supported_reachable _ _ _ Hr) as Hw.
    destruct e; simpl in Hs.
    + simplify_eq. rewrite state_commit. by apply listeners_commit.
    + simplify_eq. rewrite state_commit. by apply listeners_commit.
    + simplify_eq. rewrite state_commit. by apply listeners_commit.
    + case_bool_decide; [|done]. simplify_eq.
      rewrite state_commit. by apply listeners_commit.
    + simplify_eq.
      destruct (dispatchVisibilityChange_frame visible w)
        as (-> & _ & _ & -> & _). done.
    + destruct (Nat.ltb 0 (pending w)); [|done]. by simplify_eq.
    + destruct (Nat.ltb 0 (pending w)); [|done]. by simplify_eq.
    + case_bool_decide; [|done]. by simplify_eq.
Qed.

(** With one listener registered the dispatch runs that one. *)
Lemma dispatch_one_listener v w a :
  visibilityListeners w = [a] ->
  dispatchVisibilityChange v w = handleVisibilityChange a v w.
Proof. intros H. unfold dispatchVisibilityChange. by rewrite H. Qed.

(** X11.  The visibility listener is never stale: with the API the
    listeners registered in a reachable page are exactly the one that
    the effect of the current [activePlayer] registered, the cleanup
    having removed the one before.  So a visibility change touches
    neither the state, the storage nor the timers, and it sends a
    request exactly when the page became visible, a player is on the
    move and the ref holds no unreleased sentinel. *)
Theorem visibility_change_requests_lock ls w visible :
  reachable ls true w ->
  visibilityListeners w = [activePlayer (state w)] /\
  exists w', step (VisibilityChange visible) w = Some w' /\
    state w' = state w /\ localStorage w' = localStorage w /\
    intervals w' = intervals w /\
    wakeLockRef w' = wakeLockRef w /\ live w' = live w /\
    pending w' =
      match activePlayer (state w) with
      | Some _ => if visible && negb (holdsLock w) then S (pending w)
                  else pending w
      | None => pending w
      end.
Proof.
  intros Hl%listeners_follow_activePlayer. split; [done|].
  exists (dispatchVisibilityChange visible w). split; [done|].
  destruct (dispatchVisibilityChange_frame visible w)
    as (-> & -> & -> & _ & _ & -> & -> & _).
  repeat split.
  rewrite (dispatch_one_listener _ _ _ Hl).
  unfold handleVisibilityChange, requestWakeLock.
  destruct (activePlayer (state w)); [|done].
  destruct visible; [|done]. by destruct (holdsLock w).
Qed.

Lemma revoked_game_reachable : reachable ∅ true revoked_game.
Proof.
  apply (reach_step _ _ (LockRevoked 0) granted_game);
    [|vm_compute; reflexivity].
  apply (reach_step _ _ LockGranted (tapped player1 (mount ∅ true)));
    [|vm_compute; reflexivity].
  apply (reach_step _ _ (Tap player1) (mount ∅ true)); [|reflexivity].
  apply reach_mount.
Defined.

Lemma visibility_change_requests_lock_witness :
  visibilityListeners revoked_game = [Some player2] /\
  exists w', step (VisibilityChange true) revoked_game = Some w' /\
    pending w' = 1%nat.
Proof.
  destruct (visibility_change_requests_lock ∅ revoked_game true
              revoked_game_reachable)
    as (Hl & w' & Hs & _ & _ & _ & _ & _ & Hp).
  split; [exact Hl|]. exists w'. split; [exact Hs | exact Hp].
Defined.

(** ** What a commit does to the wake lock *)

Lemma lockState_requestWakeLock w1 w2 :
  lockState w1 = lockState w2 ->
  lockState (requestWakeLock w1) = lockState (requestWakeLock w2).
Proof.
  destruct w1, w2. unfold lockState, requestWakeLock, holdsLock. simpl.
  intros [= -> -> -> ->]. by repeat case_match.
Qed.

Lemma lockState_releaseWakeLock w1 w2 :
  lockState w1 = lockState w2 ->
  lockState (releaseWakeLock w1) = lockState (releaseWakeLock w2).
Proof.
  destruct w1, w2. unfold lockState, releaseWakeLock. simpl.
  intros [= -> -> -> ->]. by repeat case_match.
Qed.

Lemma lockState_tickEffect w : lockState (tickEffect w) = lockState w.
Proof. unfold tickEffect. by case_match. Qed.

Lemma lockState_tickCleanup a w : lockState (tickCleanup a w) = lockState w.
Proof. unfold tickCleanup. by case_match. Qed.

Lemma lockState_wakeLockCleanup a w :
  wakeLockSupported w = true ->
  lockState (wakeLockCleanup a w) = lockState (releaseWakeLock w).
Proof.
  intros H. unfold wakeLockCleanup. rewrite H.
  by apply lockState_releaseWakeLock.
Qed.

Lemma lockState_wakeLockEffect w :
  wakeLockSupported w = true ->
  lockState (wakeLockEffect w) =
    lockState (match activePlayer (state w) with
               | Some _ => requestWakeLock w
               | None => releaseWakeLock w
               end).
Proof. intros H. unfold wakeLockEffect. by rewrite H. Qed.

Lemma wakeLockCleanup_unsupported a w :
  wakeLockSupported w = false -> wakeLockCleanup a w = w.
Proof. intros H. unfold wakeLockCleanup. by rewrite H. Qed.

Lemma wakeLockEffect_unsupported w :
  wakeLockSupported w = false -> wakeLockEffect w = w.
Proof. intros H. unfold wakeLockEffect. by rewrite H. Qed.

(** The commit of a render touches the wake lock only when the turn
    changed and the API is there: then the cleanup releases what the
    ref holds and the effect requests a lock for a player on the move,
    and releases once more otherwise. *)
Lemma lockState_commit prev w :
  lockState (commit prev w) =
    if negb (activePlayer_eqb (activePlayer prev) (activePlayer (state w)))
       && wakeLockSupported w
    then lockState (match activePlayer (state w) with
                    | Some _ => requestWakeLock (releaseWakeLock w)
                    | None => releaseWakeLock (releaseWakeLock w)
                    end)
    else lockState w.
Proof.
  unfold commit.
  destruct (negb _) eqn:Ec; simpl; [|by destruct (same_times _ _)].
  set (a := activePlayer prev).
  destruct (wakeLockSupported w) eqn:Hsup.
  - assert (H1 : lockState (wakeLockCleanup a (tickCleanup a w))
                 = lockState (releaseWakeLock w)).
    { rewrite lockState_wakeLockCleanup by (by rewrite supported_tickCleanup).
      apply lockState_releaseWakeLock, lockState_tickCleanup. }
    assert (H2 : wakeLockSupported (wakeLockCleanup a (tickCleanup a w)) = true)
      by (by rewrite supported_wakeLockCleanup, supported_tickCleanup).
    assert (H3 : state (wakeLockCleanup a (tickCleanup a w)) = state w)
      by (by rewrite state_wakeLockCleanup, state_tickCleanup).
    revert H1 H2 H3. generalize (wakeLockCleanup a (tickCleanup a w)).
    intros w1 H1 H2 H3.
    assert (H : forall x, lockState x = lockState w1 ->
              wakeLockSupported x = true -> state x = state w ->
              lockState (wakeLockEffect (tickEffect x)) =
                lockState (match activePlayer (state w) with
                           | Some _ => requestWakeLock (releaseWakeLock w)
                           | None => releaseWakeLock (releaseWakeLock w)
                           end)).
    { intros x Hx Hs Hst.
      rewrite lockState_wakeLockEffect by (by rewrite supported_tickEffect).
      rewrite state_tickEffect, Hst.
      destruct (activePlayer (state w));
        [apply lockState_requestWakeLock | apply lockState_releaseWakeLock];
        by rewrite lockState_tickEffect, Hx. }
    destruct (same_times prev (state w)); by apply H.
  - rewrite wakeLockCleanup_unsupported by (by rewrite supported_tickCleanup).
    assert (H : forall x, lockState x = lockState w ->
              wakeLockSupported x = false ->
              lockState (wakeLockEffect (tickEffect x)) = lockState w).
    { intros x Hx Hs.
      rewrite wakeLockEffect_unsupported by (by rewrite supported_tickEffect).
      by rewrite lockState_tickEffect. }
    destruct (same_times prev (state w)); apply H; simpl;
      rewrite ?supported_tickCleanup; try done;
      apply (lockState_tickCleanup a w).
Qed.

(** The commit of a render with another [activePlayer]: the cleanup
    releases what the ref holds, and the effect, finding the ref
    without an unreleased sentinel, sends a request when a player is on
    the move. *)
Lemma commit_turn_changed prev w :
  wakeLockSupported w = true ->
  activePlayer prev <> activePlayer (state w) ->
  pending (commit prev w) =
    match activePlayer (state w) with
    | Some _ => S (pending w)
    | None => pending w
    end /\
  live (commit prev w) = live (releaseWakeLock w) /\
  wakeLockRef (commit prev w) = wakeLockRef (releaseWakeLock w) /\
  created (commit prev w) = created w.
Proof.
  intros Hsup Hne. pose proof (lockState_commit prev w) as H.
  rewrite Hsup in H.
  destruct (activePlayer_eqb (activePlayer prev) (activePlayer (state w))) eqn:E;
    [by apply activePlayer_eqb_eq in E|].
  simpl in H.
  assert (Hc : created (releaseWakeLock w) = created w /\
               pending (releaseWakeLock w) = pending w)
    by (unfold releaseWakeLock; by repeat case_match).
  destruct Hc as [Hc Hp].
  destruct (activePlayer (state w)).
  - destruct (requestWakeLock_requests_otherwise (releaseWakeLock w)
                (releaseWakeLock_releases w)) as (Hp' & Href & Hl).
    assert (Hc' : created (requestWakeLock (releaseWakeLock w)) = created w)
      by (unfold requestWakeLock; by case_match).
    unfold lockState in H. injection H as -> -> -> ->.
    by rewrite Hp', Hp.
  - rewrite releaseWakeLock_idempotent in H.
    unfold lockState in H. by injection H as -> -> -> ->.
Qed.

(** With the turn as it was, or without the API, it leaves the lock
    alone. *)
Lemma commit_same_turn_lock prev w :
  activePlayer prev = activePlayer (state w) ->
  pending (commit prev w) = pending w /\ live (commit prev w) = live w /\
  wakeLockRef (commit prev w) = wakeLockRef w /\
  created (commit prev w) = created w.
Proof.
  intros H%activePlayer_eqb_eq. pose proof (lockState_commit prev w) as Hc.
  rewrite H in Hc. simpl in Hc. unfold lockState in Hc.
  by injection Hc as -> -> -> ->.
Qed.

(** ** Runs in which requests do not overlap *)

Lemma settled_reachable ls supported w :
  reachable_settled ls supported w -> reachable ls supported w.
Proof. induction 1; [apply reach_mount | by eapply reach_step]. Qed.

Lemma lock_settled_release w :
  lock_settled w -> pending w = 0%nat ->
  lock_settled (releaseWakeLock w) /\ pending (releaseWakeLock w) = 0%nat.
Proof.
  unfold lock_settled, lock_ok, releaseWakeLock.
  intros (Hp & Hq & Hl) H0.
  destruct (wakeLockRef w) as [id|] eqn:E.
  - case_bool_decide as Hin; simpl.
    + rewrite Hl. lock_goals.
    + rewrite ?E. lock_goals.
  - rewrite ?E. lock_goals.
Qed.

Lemma lock_settled_request w :
  lock_settled w -> pending w = 0%nat -> lock_settled (requestWakeLock w).
Proof.
  unfold lock_settled, lock_ok, requestWakeLock, holdsLock.
  intros (Hp & Hq & Hl) H0.
  destruct (wakeLockRef w) as [id|] eqn:E.
  - case_bool_decide as Hin; simpl; rewrite ?E; [lock_goals|].
    rewrite Hl in Hin. set_solver.
  - simpl. rewrite ?E, ?H0. lock_goals.
Qed.

Lemma lock_settled_cleanup a w :
  lock_settled w -> pending w = 0%nat ->
  lock_settled (wakeLockCleanup a w) /\
  pending (wakeLockCleanup a w) = 0%nat.
Proof.
  intros H H0. unfold wakeLockCleanup.
  destruct (wakeLockSupported w); [|done].
  by apply lock_settled_release.
Qed.

Lemma lock_settled_tickEffect w :
  lock_settled (tickEffect w) <-> lock_settled w.
Proof. unfold tickEffect. by case_match. Qed.

Lemma pending_tickEffect w : pending (tickEffect w) = pending w.
Proof. unfold tickEffect. by case_match. Qed.

Lemma lock_settled_tickCleanup a w :
  lock_settled (tickCleanup a w) <-> lock_settled w.
Proof. unfold tickCleanup. by case_match. Qed.

Lemma pending_tickCleanup a w : pending (tickCleanup a w) = pending w.
Proof. unfold tickCleanup. by case_match. Qed.

Lemma lock_settled_effect w :
  lock_settled w -> pending w = 0%nat -> lock_settled (wakeLockEffect w).
Proof.
  intros H H0. unfold wakeLockEffect.
  destruct (wakeLockSupported w); [|done].
  destruct (activePlayer (state w)).
  - by apply (lock_settled_request w).
  - by apply (lock_settled_release w).
Qed.

(** A commit keeps the lock settled when no request is pending ... *)
Lemma lock_settled_commit prev w :
  lock_settled w -> pending w = 0%nat -> lock_settled (commit prev w).
Proof.
  intros H H0. unfold commit.
  destruct (negb (activePlayer_eqb (activePlayer prev) (activePlayer (state w)))).
  - destruct (lock_settled_cleanup (activePlayer prev)
                (tickCleanup (activePlayer prev) w)) as [H1 H2];
      [by apply lock_settled_tickCleanup | by rewrite pending_tickCleanup |].
    destruct (same_times prev (state w)); apply lock_settled_effect;
      rewrite ?pending_tickEffect; try apply lock_settled_tickEffect; done.
  - by destruct (same_times prev (state w)).
Qed.

(** ... and whenever the turn did not change, since then neither the
    cleanup nor the effect of the wake lock runs. *)
Lemma lock_settled_commit_same_turn prev w :
  activePlayer prev = activePlayer (state w) ->
  lock_settled w -> lock_settled (commit prev w).
Proof.
  intros Ha H. unfold commit.
  apply activePlayer_eqb_eq in Ha. rewrite Ha. simpl.
  by destruct (same_times prev (state w)).
Qed.

Lemma lock_settled_mount ls supported : lock_settled (mount ls supported).
Proof.
  unfold mount. simpl.
  destruct (loadEffect initialState ls) as [loaded ls1] eqn:E.
  apply lock_settled_commit_same_turn.
  - pose proof (activePlayer_loadEffect initialState ls) as H.
    by rewrite E in H.
  - unfold wakeLockEffect. simpl.
    destruct supported; unfold lock_settled, lock_ok; simpl; lock_goals.
Qed.

(** As long as no tap, pause, reset or visibility change arrives while a
    request is pending, at most one sentinel is live, and it is the one
    the ref holds. *)
Lemma settled_runs_hold_one_lock ls supported w :
  reachable_settled ls supported w ->
  lock_settled w /\ (size (live w) <= 1)%nat.
Proof.
  intros Hr.
  assert (H : lock_settled w).
  { induction Hr as [|e w w' Hr IH Hu Hs]; [apply lock_settled_mount|].
    destruct e; simpl in Hs; simplify_eq;
      try (apply lock_settled_commit; [exact IH | by apply Hu]).
    - case_bool_decide; [|done]. simplify_eq.
      apply lock_settled_commit_same_turn; [by destruct captured | exact IH].
    - pose proof (settled_reachable _ _ _ Hr) as Hreach.
      destruct supported.
      + rewrite (dispatch_one_listener _ _ _
                   (listeners_follow_activePlayer _ _ Hreach)).
        unfold handleVisibilityChange.
        destruct (activePlayer (state w)); [|done]. destruct visible; [|done].
        apply lock_settled_request; [exact IH | by apply Hu].
      + destruct (unsupported_idle _ _ Hreach) as (Hl & _).
        unfold dispatchVisibilityChange. by rewrite Hl.
    - destruct (Nat.ltb_spec 0 (pending w)); [|done]. simplify_eq.
      destruct IH as (Hp & Hq & Hl).
      assert (pending w = 1)%nat as H1 by lia.
      rewrite (Hq H1) in Hl.
      unfold lock_settled, lock_ok, requestGranted. simpl.
      rewrite Hl, H1. lock_goals.
    - destruct (Nat.ltb_spec 0 (pending w)); [|done]. simplify_eq.
      destruct IH as (Hp & Hq & Hl).
      unfold lock_settled, lock_ok, requestDenied. simpl.
      lock_goals.
    - case_bool_decide as Hin; [|done]. simplify_eq.
      destruct IH as (Hp & Hq & Hl).
      unfold lock_settled, lock_ok, sentinelReleased. simpl.
      repeat split; [done|].
      destruct (wakeLockRef w); rewrite Hl in *; set_solver. }
  split; [exact H|].
  destruct H as (_ & _ & Hl).
  destruct (wakeLockRef w); rewrite Hl.
  - by rewrite size_singleton.
  - rewrite size_empty. lia.
Qed.

(** ** The wake lock while the clock is paused *)

Lemma mount_idle ls supported :
  pending (mount ls supported) = 0%nat /\ live (mount ls supported) = ∅ /\
  wakeLockRef (mount ls supported) = None.
Proof.
  unfold mount. simpl.
  pose proof (activePlayer_loadEffect initialState ls) as Ha.
  destruct (loadEffect initialState ls) as [loaded ls1]. simpl in Ha.
  rewrite commit_same_turn by (simpl; by rewrite Ha).
  unfold wakeLockEffect. simpl.
  destruct (same_times initialState loaded); by destruct supported.
Qed.

(** Releasing in a settled page leaves no sentinel. *)
Lemma release_settled_idle w :
  lock_settled w ->
  live (releaseWakeLock w) = ∅ /\ wakeLockRef (releaseWakeLock w) = None.
Proof.
  unfold lock_settled, lock_ok, releaseWakeLock. intros (_ & _ & Hl).
  destruct (wakeLockRef w) as [id|] eqn:E; [|by rewrite E].
  case_bool_decide as Hin.
  - simpl. rewrite Hl. split; [apply difference_diag_L | done].
  - exfalso. apply Hin. rewrite Hl. by apply elem_of_singleton.
Qed.

(** The commit of a render that pauses the clock releases the lock. *)
Lemma commit_pauses prev w p :
  wakeLockSupported w = true ->
  lock_settled w -> pending w = 0%nat ->
  activePlayer prev = Some p -> activePlayer (state w) = None ->
  pending (commit prev w) = 0%nat /\ live (commit prev w) = ∅ /\
  wakeLockRef (commit prev w) = None.
Proof.
  intros Hsup Hlock Hp Hprev Hnow.
  destruct (commit_turn_changed prev w Hsup) as (-> & -> & -> & _);
    [congruence|].
  rewrite Hnow. destruct (release_settled_idle w Hlock) as [-> ->]. done.
Qed.

Lemma settled_paused_idle ls w :
  reachable_settled ls true w ->
  activePlayer (state w) = None ->
  pending w = 0%nat /\ live w = ∅ /\ wakeLockRef w = None.
Proof.
  induction 1 as [|e w w' Hr IH Hu Hs]; intros Hnone; [apply mount_idle|].
  pose proof (settled_reachable _ _ _ Hr) as Hreach.
  pose proof (supported_reachable _ _ _ Hreach) as Hsup.
  pose proof (listeners_follow_activePlayer _ _ Hreach) as Hl.
  pose proof (proj1 (settled_runs_hold_one_lock _ _ _ Hr)) as Hlock.
  pose proof (state_step _ _ _ Hs) as Hst.
  destruct e; simpl in Hs, Hst.
  - by rewrite Hst in Hnone.
  - simplify_eq. destruct (activePlayer (state w)) as [p|] eqn:Hp.
    + by apply (commit_pauses _ _ p); try done; apply Hu.
    + destruct (commit_same_turn_lock (state w) (handlePause w))
        as (-> & -> & -> & _); [simpl; by rewrite Hp|]. by apply IH.
  - simplify_eq. destruct (activePlayer (state w)) as [p|] eqn:Hp.
    + by apply (commit_pauses _ _ p); try done; apply Hu.
    + destruct (commit_same_turn_lock (state w) (handleReset w))
        as (-> & -> & -> & _); [simpl; by rewrite Hp|]. by apply IH.
  - case_bool_decide as Hin; [|done].
    apply (armed_timer _ _ _ _ Hreach) in Hin.
    rewrite Hst in Hnone. destruct captured; simpl in Hnone; congruence.
  - rewrite Hst in Hnone. rewrite Hnone in Hl.
    rewrite (dispatch_one_listener _ _ _ Hl) in Hs. simpl in Hs.
    simplify_eq. by apply IH.
  - rewrite Hst in Hnone. destruct (IH Hnone) as (Hp & _).
    by rewrite Hp in Hs.
  - rewrite Hst in Hnone. destruct (IH Hnone) as (Hp & _).
    by rewrite Hp in Hs.
  - rewrite Hst in Hnone. destruct (IH Hnone) as (_ & Hlive & _).
    rewrite Hlive in Hs. by case_bool_decide.
Qed.

(** X12.  When no tap, pause, reset or visibility change arrives while
    a request is pending, the component holds at most one sentinel, the
    one in the ref, and none while a request is pending; and on a
    paused clock it holds none and waits for none. *)
Theorem settled_runs_release_on_pause ls supported w :
  reachable_settled ls supported w ->
  lock_settled w /\ (size (live w) <= 1)%nat /\
  (activePlayer (state w) = None ->
   pending w = 0%nat /\ live w = ∅ /\ wakeLockRef w = None).
Proof.
  intros Hr. destruct (settled_runs_hold_one_lock _ _ _ Hr) as [H1 H2].
  split; [done|]. split; [done|]. intros Hnone.
  destruct supported; [by eapply settled_paused_idle|].
  destruct (unsupported_idle _ _ (settled_reachable _ _ _ Hr))
    as (_ & ? & ? & ?). done.
Qed.

(** A game in which the lock was granted before the pause. *)
Lemma paused_granted_game_settled :
  reachable_settled ∅ true (paused granted_game).
Proof.
  apply (settled_step _ _ PauseClick granted_game);
    [|intros _; vm_compute; reflexivity | reflexivity].
  apply (settled_step _ _ LockGranted (tapped player1 (mount ∅ true)));
    [|discriminate | vm_compute; reflexivity].
  apply (settled_step _ _ (Tap player1) (mount ∅ true));
    [|intros _; vm_compute; reflexivity | reflexivity].
  apply settled_mount.
Defined.

Lemma settled_runs_release_on_pause_witness :
  wakeLockRef granted_game = Some 0%nat /\
  live (paused granted_game) = ∅ /\ pending (paused granted_game) = 0%nat.
Proof.
  split; [reflexivity|].
  destruct (settled_runs_release_on_pause ∅ true (paused granted_game)
              paused_granted_game_settled) as (_ & _ & Hidle).
  destruct Hidle as (Hp & Hl & _); [vm_compute; reflexivity|].
  split; [exact Hl | exact Hp].
Defined.

(** ** The wake lock across a change of turn *)

Lemma releaseWakeLock_with_state s w :
  live (releaseWakeLock (with_state s w)) = live (releaseWakeLock w) /\
  wakeLockRef (releaseWakeLock (with_state s w)) = wakeLockRef (releaseWakeLock w).
Proof. unfold releaseWakeLock. simpl. by repeat case_match. Qed.

Lemma tap_renews_lock w X :
  wakeLockSupported w = true ->
  activePlayer (state w) <> Some (opponent X) ->
  let w' := commit (state w) (handlePlayerAreaClick X w) in
  wakeLockSupported w' = true /\
  activePlayer (state w') = Some (opponent X) /\
  pending w' = S (pending w) /\
  live w' = live (releaseWakeLock w) /\
  wakeLockRef w' = wakeLockRef (releaseWakeLock w) /\
  created w' = created w /\
  holdsLock w' = false.
Proof.
  intros Hsup Hne w'.
  destruct (commit_turn_changed (state w) (handlePlayerAreaClick X w))
    as (Hp & Hl & Href & Hc); [done|done|].
  destruct (releaseWakeLock_with_state
              (setActivePlayer (Some (opponent X)) (state w)) w) as [El Er].
  fold (handlePlayerAreaClick X w) in El, Er.
  split; [unfold w'; by rewrite supported_commit|].
  split; [unfold w'; by rewrite state_commit|].
  split; [done|]. split; [by rewrite <- El|]. split; [by rewrite <- Er|].
  split; [done|].
  pose proof (releaseWakeLock_releases w) as Hh.
  unfold holdsLock in *. fold w' in Hl, Href. by rewrite Hl, Href, El, Er.
Qed.

Lemma pause_releases_lock w :
  wakeLockSupported w = true ->
  activePlayer (state w) <> None ->
  let w' := commit (state w) (handlePause w) in
  activePlayer (state w') = None /\
  pending w' = pending w /\
  live w' = live (releaseWakeLock w) /\
  wakeLockRef w' = wakeLockRef (releaseWakeLock w).
Proof.
  intros Hsup Hne w'.
  destruct (commit_turn_changed (state w) (handlePause w))
    as (Hp & Hl & Href & Hc); [done|done|].
  destruct (releaseWakeLock_with_state (setActivePlayer None (state w)) w)
    as [El Er].
  fold (handlePause w) in El, Er.
  split; [unfold w'; by rewrite state_commit|].
  split; [done|]. split; [by rewrite <- El|]. by rewrite <- Er.
Qed.



(** ** Requests that overlap *)

Lemma run_cons e es w w' :
  step e w = Some w' -> run (e :: es) w = run es w'.
Proof. intros H. cbn [run]. by rewrite H. Qed.

(** X14.  The guard of [requestWakeLock] does not cover a request still
    in flight.  On a page with the API, two taps that both change the
    turn before the platform answers send two requests; once both are
    granted the ref holds the second sentinel only, and the pause that
    follows releases that one: the first stays live with no reference
    to it left in the component. *)
Theorem overlapping_requests_leak_a_sentinel w X :
  wakeLockSupported w = true ->
  activePlayer (state w) <> Some (opponent X) ->
  exists w',
    run [Tap X; Tap (opponent X); LockGranted; LockGranted; PauseClick] w
      = Some w' /\
    activePlayer (state w') = None /\
    pending w' = pending w /\
    wakeLockRef w' = None /\
    created w ∈ live w' /\
    S (created w) ∉ live w'.
Proof.
  intros Hsup Hne.
  destruct (tap_renews_lock w X Hsup Hne)
    as (Hsup1 & Ha1 & Hp1 & Hl1 & Href1 & Hc1 & Hh1).
  assert (Hs1 : step (Tap X) w =
                  Some (commit (state w) (handlePlayerAreaClick X w)))
    by reflexivity.
  revert Hsup1 Ha1 Hp1 Hl1 Href1 Hc1 Hh1 Hs1.
  generalize (commit (state w) (handlePlayerAreaClick X w)).
  intros w1 Hsup1 Ha1 Hp1 Hl1 Href1 Hc1 Hh1 Hs1.
  assert (Hne1 : activePlayer (state w1) <> Some (opponent (opponent X)))
    by (rewrite Ha1; by destruct X).
  destruct (tap_renews_lock w1 (opponent X) Hsup1 Hne1)
    as (Hsup2 & Ha2 & Hp2 & Hl2 & Href2 & Hc2 & Hh2).
  assert (Hs2 : step (Tap (opponent X)) w1 =
                  Some (commit (state w1) (handlePlayerAreaClick (opponent X) w1)))
    by reflexivity.
  revert Hsup2 Ha2 Hp2 Hl2 Href2 Hc2 Hh2 Hs2.
  generalize (commit (state w1) (handlePlayerAreaClick (opponent X) w1)).
  intros w2 Hsup2 Ha2 Hp2 Hl2 Href2 Hc2 Hh2 Hs2.
  rewrite (releaseWakeLock_noop_when_not_held w1 Hh1) in Hl2, Href2.
  assert (Hs3 : step LockGranted w2 = Some (requestGranted w2))
    by (unfold step; by rewrite Hp2).
  assert (Hs4 : step LockGranted (requestGranted w2) =
                  Some (requestGranted (requestGranted w2)))
    by (unfold step; simpl; by rewrite Hp2, Hp1).
  assert (Hne4 : activePlayer (state (requestGranted (requestGranted w2)))
                   <> None) by (simpl; by rewrite Ha2).
  destruct (pause_releases_lock (requestGranted (requestGranted w2)) Hsup2 Hne4)
    as (Ha5 & Hp5 & Hl5 & Href5).
  assert (Hs5 : step PauseClick (requestGranted (requestGranted w2)) =
            Some (commit (state (requestGranted (requestGranted w2)))
                    (handlePause (requestGranted (requestGranted w2)))))
    by reflexivity.
  assert (Hrel : releaseWakeLock (requestGranted (requestGranted w2)) =
            sentinelReleased (S (created w2)) (requestGranted (requestGranted w2))).
  { unfold releaseWakeLock. simpl.
    rewrite bool_decide_eq_true_2 by set_solver. done. }
  rewrite Hrel in Hl5, Href5.
  revert Ha5 Hp5 Hl5 Href5 Hs5.
  generalize (commit (state (requestGranted (requestGranted w2)))
                (handlePause (requestGranted (requestGranted w2)))).
  intros w5 Ha5 Hp5 Hl5 Href5 Hs5. simpl in Hl5, Href5, Hp5.
  exists w5. split.
  { rewrite (run_cons _ _ _ _ Hs1), (run_cons _ _ _ _ Hs2),
      (run_cons _ _ _ _ Hs3), (run_cons _ _ _ _ Hs4), (run_cons _ _ _ _ Hs5).
    reflexivity. }
  split; [exact Ha5|]. split; [rewrite Hp5, Hp2, Hp1; lia|].
  split; [exact Href5|]. rewrite Hl5, Hc2, Hc1.
  rewrite !elem_of_difference, !elem_of_union, !elem_of_singleton.
  split; [split; [tauto | lia] | tauto].
Qed.

Lemma overlapping_requests_leak_a_sentinel_witness :
  exists w',
    run [Tap player1; Tap player2; LockGranted; LockGranted; PauseClick]
      (mount ∅ true) = Some w' /\
    wakeLockRef w' = None /\ 0%nat ∈ live w'.
Proof.
  destruct (overlapping_requests_leak_a_sentinel (mount ∅ true) player1)
    as (w' & Hrun & _ & _ & Href & Hin & _);
    [reflexivity | discriminate |].
  exists w'. split; [exact Hrun|]. split; [exact Href | exact Hin].
Defined.

(** ** Sentinels the ref does not hold *)

(** What a release can do to the sentinels: it takes away at most the
    one the ref holds. *)
Lemma releaseWakeLock_frame w :
  created (releaseWakeLock w) = created w /\
  (forall id, id ∈ live (releaseWakeLock w) -> id ∈ live w) /\
  (forall id, id ∈ live w -> wakeLockRef w <> Some id ->
     id ∈ live (releaseWakeLock w)) /\
  (wakeLockRef (releaseWakeLock w) = None \/
   wakeLockRef (releaseWakeLock w) = wakeLockRef w).
Proof.
  unfold releaseWakeLock.
  destruct (wakeLockRef w) as [r|] eqn:E; [|by auto].
  case_bool_decide; [|by auto]. simpl.
  split; [done|]. split; [|split; [|by left]].
  - intros id. rewrite elem_of_difference. tauto.
  - intros id Hid Hne. rewrite elem_of_difference, elem_of_singleton.
    split; [done | congruence].
Qed.

(** What a commit can do to the sentinels: it creates none, it releases
    at most the one the ref holds, and it leaves the ref alone or
    clears it. *)
Lemma commit_lock_frame prev w :
  created (commit prev w) = created w /\
  (forall id, id ∈ live (commit prev w) -> id ∈ live w) /\
  (forall id, id ∈ live w -> wakeLockRef w <> Some id ->
     id ∈ live (commit prev w)) /\
  (wakeLockRef (commit prev w) = None \/
   wakeLockRef (commit prev w) = wakeLockRef w).
Proof.
  pose proof (lockState_commit prev w) as H.
  destruct (negb _ && wakeLockSupported w).
  - assert (H' : (wakeLockRef (commit prev w), live (commit prev w),
                  created (commit prev w)) =
                 (wakeLockRef (releaseWakeLock w), live (releaseWakeLock w),
                  created (releaseWakeLock w))).
    { destruct (activePlayer (state w)).
      - unfold lockState, requestWakeLock in H.
        destruct (holdsLock (releaseWakeLock w)); simpl in H; congruence.
      - rewrite releaseWakeLock_idempotent in H. unfold lockState in H.
        congruence. }
    injection H' as -> -> ->. apply releaseWakeLock_frame.
  - unfold lockState in H. injection H as -> -> -> _. by auto.
Qed.

Lemma created_step e w w' :
  step e w = Some w' -> (created w <= created w')%nat.
Proof.
  destruct e; simpl; intros Hs; repeat case_match; simplify_eq;
    rewrite ?(proj1 (commit_lock_frame _ _)); simpl; try lia.
  destruct (dispatchVisibilityChange_frame visible w)
    as (_ & _ & _ & _ & _ & _ & _ & -> & _). lia.
Qed.

Lemma sentinels_below_created ls supported w :
  reachable ls supported w ->
  forall id, id ∈ live w -> (id < created w)%nat.
Proof.
  induction 1 as [|e w w' Hr IH Hs]; intros id Hid.
  - destruct (mount_idle ls supported) as (_ & Hl & _).
    rewrite Hl in Hid. set_solver.
  - pose proof (created_step _ _ _ Hs) as Hc.
    assert (id ∈ live w \/ id = created w /\ (created w < created w')%nat)
      as [Hin | [-> Hlt]]; [|specialize (IH _ Hin); lia | done].
    destruct e; simpl in Hs.
    + simplify_eq. left.
      by apply (proj1 (proj2 (commit_lock_frame _ _))) in Hid.
    + simplify_eq. left.
      by apply (proj1 (proj2 (commit_lock_frame _ _))) in Hid.
    + simplify_eq. left.
      by apply (proj1 (proj2 (commit_lock_frame _ _))) in Hid.
    + case_bool_decide; [|done]. simplify_eq. left.
      by apply (proj1 (proj2 (commit_lock_frame _ _))) in Hid.
    + simplify_eq. left. revert Hid.
      destruct (dispatchVisibilityChange_frame visible w)
        as (_ & _ & _ & _ & _ & _ & -> & _). done.
    + destruct (Nat.ltb 0 (pending w)); [|done]. simplify_eq.
      simpl in Hid. apply elem_of_union in Hid as [->%elem_of_singleton|Hid];
        [right; simpl; split; [done | lia] | by left].
    + destruct (Nat.ltb 0 (pending w)); [|done]. simplify_eq. by left.
    + case_bool_decide; [|done]. simplify_eq. left. simpl in Hid. set_solver.
Qed.

(** X15.  The component releases a sentinel only through the ref: a
    live sentinel that the ref does not hold stays live, and out of the
    ref, through every event other than the platform taking it back. *)
Theorem unreferenced_sentinel_stays_live ls supported w e w' id :
  reachable ls supported w ->
  id ∈ live w -> wakeLockRef w <> Some id ->
  step e w = Some w' -> e <> LockRevoked id ->
  id ∈ live w' /\ wakeLockRef w' <> Some id.
Proof.
  intros Hr Hid Href Hs He.
  pose proof (sentinels_below_created _ _ _ Hr id Hid) as Hlt.
  assert (Hcommit : forall prev x,
            live x = live w -> wakeLockRef x = wakeLockRef w ->
            id ∈ live (commit prev x) /\ wakeLockRef (commit prev x) <> Some id).
  { intros prev x El Er.
    destruct (commit_lock_frame prev x) as (_ & _ & Hkeep & [Hn | Hsame]).
    - split; [apply Hkeep; congruence | congruence].
    - split; [apply Hkeep; congruence | congruence]. }
  destruct e; simpl in Hs.
  - simplify_eq. by apply Hcommit.
  - simplify_eq. by apply Hcommit.
  - simplify_eq. by apply Hcommit.
  - case_bool_decide; [|done]. simplify_eq. by apply Hcommit.
  - simplify_eq.
    destruct (dispatchVisibilityChange_frame visible w)
      as (_ & _ & _ & _ & _ & -> & -> & _). done.
  - destruct (Nat.ltb 0 (pending w)); [|done]. simplify_eq. simpl.
    split; [set_solver|]. intros [=]. lia.
  - destruct (Nat.ltb 0 (pending w)); [|done]. by simplify_eq.
  - case_bool_decide; [|done]. simplify_eq. simpl.
    split; [|done]. apply elem_of_difference. split; [done|].
    rewrite elem_of_singleton. congruence.
Qed.

Lemma two_grants_reachable : reachable ∅ true two_grants.
Proof.
  unfold two_grants.
  apply (reach_step _ _ LockGranted
           (requestGranted (tapped player2 (tapped player1 (mount ∅ true)))));
    [|vm_compute; reflexivity].
  apply (reach_step _ _ LockGranted (tapped player2 (tapped player1 (mount ∅ true))));
    [|vm_compute; reflexivity].
  apply (reach_step _ _ (Tap player2) (tapped player1 (mount ∅ true)));
    [|reflexivity].
  apply (reach_step _ _ (Tap player1) (mount ∅ true)); [|reflexivity].
  apply reach_mount.
Defined.

Lemma unreferenced_sentinel_stays_live_witness :
  0%nat ∈ live (commit (state two_grants) (handlePause two_grants)) /\
  wakeLockRef (commit (state two_grants) (handlePause two_grants)) <> Some 0%nat.
Proof.
  apply (unreferenced_sentinel_stays_live ∅ true two_grants PauseClick _ 0%nat).
  - exact two_grants_reachable.
  - apply (proj1 (bool_decide_eq_true (0%nat ∈ live two_grants))).
    vm_compute. reflexivity.
  - vm_compute. discriminate.
  - reflexivity.
  - discriminate.
Defined.

(** ** A reset stops the clock *)

(** X16.  A reset stops the clock whoever was on the move: the state is
    (0, 0, paused) and the cleanup of the tick effect has cleared the
    timer, so that none is armed and no tick can follow; the first tick
    after the next tap counts from zero. *)
Theorem reset_stops_the_clock ls supported w X :
  reachable ls supported w ->
  exists w', step ResetClick w = Some w' /\
    state w' = initialState /\ intervals w' = [] /\
    (forall q, step (IntervalFires q) w' = None) /\
    exists w'', run [Tap X; IntervalFires (opponent X)] w' = Some w'' /\
      timeOf (opponent X) (state w'') = JInt 1 /\
      timeOf X (state w'') = JInt 0.
Proof.
  intros Hr.
  assert (Hs : step ResetClick w = Some (commit (state w) (handleReset w)))
    by reflexivity.
  pose proof (reach_step _ _ _ _ _ Hr Hs) as Hr'.
  pose proof (intervals_follow_activePlayer _ _ _ Hr') as Hi.
  pose proof (state_step _ _ _ Hs) as Hst. simpl in Hst.
  revert Hs Hr' Hi Hst. generalize (commit (state w) (handleReset w)).
  intros w' Hs Hr' Hi Hst. rewrite Hst in Hi. simpl in Hi.
  exists w'. split; [done|]. split; [done|]. split; [done|].
  split.
  { intros q. simpl. rewrite Hi.
    rewrite bool_decide_eq_false_2; [done | apply not_elem_of_nil]. }
  assert (Hs1 : step (Tap X) w' =
                  Some (commit (state w') (handlePlayerAreaClick X w')))
    by reflexivity.
  pose proof (reach_step _ _ _ _ _ Hr' Hs1) as Hr1.
  pose proof (state_step _ _ _ Hs1) as Hst1. simpl in Hst1.
  revert Hs1 Hr1 Hst1.
  generalize (commit (state w') (handlePlayerAreaClick X w')).
  intros w1 Hs1 Hr1 Hst1. rewrite Hst in Hst1.
  destruct (tick_step _ _ _ (opponent X) Hr1) as (w2 & Hs2 & _ & Hst2);
    [by rewrite Hst1|].
  exists w2. split; [by rewrite (run_cons _ _ _ _ Hs1), (run_cons _ _ _ _ Hs2)|].
  rewrite Hst2, Hst1. by destruct X.
Qed.

(** The restored game after one tick of player 2. *)
Lemma ticked_running_reachable :
  reachable (stored (record_text "12" "7")) true (ticked player2 running_12_7).
Proof.
  apply (reach_step _ _ (IntervalFires player2) running_12_7);
    [|vm_compute; reflexivity].
  apply running_12_7_reachable.
Defined.

Lemma reset_stops_the_clock_witness :
  intervals (ticked player2 running_12_7) = [player2] /\
  state (ticked player2 running_12_7)
    = mkState (JInt 12) (JInt 8) (Some player2) /\
  exists w', step ResetClick (ticked player2 running_12_7) = Some w' /\
    state w' = initialState /\ intervals w' = [] /\
    step (IntervalFires player2) w' = None.
Proof.
  split; [vm_compute; reflexivity|]. split; [vm_compute; reflexivity|].
  destruct (reset_stops_the_clock (stored (record_text "12" "7")) true
              (ticked player2 running_12_7) player1
              ticked_running_reachable) as (w' & Hs & Hst & Hi & Hn & _).
  exists w'. split; [exact Hs|]. split; [exact Hst|].
  split; [exact Hi | apply Hn].
Defined.

(** ** Records of integers of either sign *)

Lemma parse_unsigned_dec neg n rest :
  ends_number rest = true ->
  parse_unsigned neg (dec_string n +:+ rest) =
    Some (make_number neg n 0, rest).
Proof.
  intros Hr.
  assert (Hfrac : parse_fraction rest = Some (EmptyString, rest)).
  { destruct rest as [|c r]; [done|]. simpl in Hr.
    destruct c as [[] [] [] [] [] [] [] []]; try done. }
  assert (Hexp : parse_exponent rest = Some (0, rest)).
  { destruct rest as [|c r]; [done|]. simpl in Hr.
    destruct c as [[] [] [] [] [] [] [] []]; try done. }
  destruct (dec_string_head n) as (c & r & E & Hc & Hzero).
  rewrite E, append_cons. unfold parse_unsigned. rewrite Hc.
  destruct (Ascii.eqb c "0") eqn:Ec.
  - specialize (Hzero eq_refl). subst n.
    injection E as <- <-. rewrite append_nil_l. cbv beta iota.
    rewrite Hfrac. simpl. rewrite Hexp. simpl.
    reflexivity.
  - rewrite <- append_cons, <- E. unfold dec_string.
    rewrite span_digits_uint by exact Hr. cbv beta iota.
    rewrite Hfrac. simpl. rewrite Hexp. simpl.
    by rewrite append_nil_r, digits_value_uint, DecimalN.Unsigned.of_to.
Qed.

(** [String] of an integer is read back by the number parser. *)
Lemma parse_number_int a rest :
  ends_number rest = true ->
  parse_number (number_to_string (int_number a) +:+ rest) =
    Some (int_number a, rest).
Proof.
  intros Hr. unfold number_to_string, int_number. cbn [mant dexp].
  destruct (Z.ltb_spec a 0) as [Hneg|Hpos].
  - rewrite append_assoc.
    change ("-" +:+ (dec_string (Z.abs_N a) +:+ rest))
      with (String "-" (dec_string (Z.abs_N a) +:+ rest)).
    change (parse_number (String "-" (dec_string (Z.abs_N a) +:+ rest)))
      with (parse_unsigned true (dec_string (Z.abs_N a) +:+ rest)).
    rewrite parse_unsigned_dec by exact Hr.
    unfold make_number. simpl. do 3 f_equal. lia.
  - rewrite append_nil_l.
    destruct (dec_string_head (Z.abs_N a)) as (c & r & E & Hc & _).
    assert (parse_number (dec_string (Z.abs_N a) +:+ rest) =
              parse_unsigned false (dec_string (Z.abs_N a) +:+ rest)) as ->.
    { rewrite E, append_cons. unfold parse_number.
      destruct (Ascii.eqb_spec c "-") as [->|_]; [discriminate Hc | done]. }
    rewrite parse_unsigned_dec by exact Hr.
    unfold make_number. simpl. do 3 f_equal. lia.
Qed.

Lemma parse_value_int f a rest :
  ends_number rest = true ->
  parse_value (S f) (number_to_string (int_number a) +:+ rest) =
    Some (JInt a, rest).
Proof.
  intros Hr.
  assert (Hv : parse_value (S f) (number_to_string (int_number a) +:+ rest) =
            '(n, r) ← parse_number (number_to_string (int_number a) +:+ rest);
            Some (JNumber n, r)).
  { unfold number_to_string, int_number. cbn [mant dexp].
    destruct (a <? 0).
    - rewrite append_assoc. reflexivity.
    - rewrite append_nil_l.
      destruct (dec_string_head (Z.abs_N a)) as (c & r & E & Hc & _).
      rewrite E, append_cons. by apply parse_value_digit. }
  rewrite Hv, parse_number_int by exact Hr. reflexivity.
Qed.

Lemma JSON_parse_int_record (a b : Z) :
  JSON_parse (record_text (number_to_string (int_number a))
                (number_to_string (int_number b))) =
    Normal (stateToSave (JInt a) (JInt b)).
Proof.
  unfold JSON_parse, record_text.
  assert (Hfuel : exists f,
    (2 * String.length ("{" +:+ quote_json "p1Time" +:+ ":" +:+
        number_to_string (int_number a)
        +:+ "," +:+ quote_json "p2Time" +:+ ":" +:+
        number_to_string (int_number b) +:+ "}") + 2
     = S (S (S (S f))))%nat).
  { rewrite append_cons. cbn [String.length].
    match goal with
    | |- context [S (String.length ?x)] => exists (2 * String.length x)%nat
    end. lia. }
  destruct Hfuel as [f ->].
  rewrite parse_value_object.
  erewrite parse_members_p1Time by (apply parse_value_int; reflexivity).
  erewrite parse_members_p2Time by (apply parse_value_int; reflexivity).
  reflexivity.
Qed.

Lemma load_try_saved_int (a b : Z) (ls : gmap string string) :
  load_try (saveEffect (JInt a) (JInt b) ls) = Normal (Some (JInt a, JInt b)).
Proof.
  unfold load_try, saveEffect. rewrite lookup_insert_eq.
  assert (Htext : JSON_stringify (stateToSave (JInt a) (JInt b))
            = record_text (number_to_string (int_number a))
                (number_to_string (int_number b)))
    by (unfold JInt; by rewrite saved_text).
  rewrite Htext.
  assert (Hne : String.eqb (record_text (number_to_string (int_number a))
                              (number_to_string (int_number b))) EmptyString = false)
    by reflexivity.
  rewrite Hne, JSON_parse_int_record. cbn [negb destructure_times stateToSave].
  cbn [js_get List.find fst snd String.eqb Ascii.eqb Bool.eqb fmap option_fmap option_map].
  by rewrite !or_zero_int.
Qed.

(** X17.  A reload restores the clock: mounting the component again on
    the storage of a reachable page whose two times are safe integers,
    of either sign, gives back exactly these two times, with the clock
    paused. *)
Theorem reload_restores_times ls supported w supported' (a b : Z) :
  reachable ls supported w ->
  player1Time (state w) = JInt a -> player2Time (state w) = JInt b ->
  isSafeInteger a = true -> isSafeInteger b = true ->
  state (mount (localStorage w) supported') = mkState (JInt a) (JInt b) None.
Proof.
  intros Hr Ea Eb _ _.
  rewrite state_mount. unfold loadEffect.
  destruct (storage_mirrors_state _ _ _ Hr) as [Hm | (Hm & E1 & E2)].
  - rewrite Ea, Eb in Hm.
    rewrite (load_try_lookup _ (saveEffect (JInt a) (JInt b) ∅)),
      load_try_saved_int by (unfold saveEffect; by rewrite lookup_insert_eq).
    done.
  - rewrite Ea in E1. rewrite Eb in E2. rewrite E1, E2.
    unfold load_try. by rewrite Hm.
Qed.

Lemma reload_restores_times_witness :
  state (ticked player2 running_12_7)
    = mkState (JInt 12) (JInt 8) (Some player2) /\
  state (mount (localStorage (ticked player2 running_12_7)) false)
    = mkState (JInt 12) (JInt 8) None.
Proof.
  split; [vm_compute; reflexivity|].
  apply (reload_restores_times (stored (record_text "12" "7")) true
           (ticked player2 running_12_7) false 12 8 ticked_running_reachable);
    vm_compute; reflexivity.
Defined.

(** X18.  The round trip through the storage holds for integers of
    either sign: [JSON.parse] reads the record that [JSON.stringify]
    wrote for two integer times back as the same object, the try block
    of the load effect finds the two times in it, zero included, and
    the record is one that loads integers. *)
Theorem integer_record_round_trip (a b : Z) (ls : gmap string string) :
  JSON_parse (JSON_stringify (stateToSave (JInt a) (JInt b))) =
    Normal (stateToSave (JInt a) (JInt b)) /\
  load_try (saveEffect (JInt a) (JInt b) ls) = Normal (Some (JInt a, JInt b)) /\
  loads_ints (saveEffect (JInt a) (JInt b) ls) = true.
Proof.
  split; [|split].
  - unfold JInt. by rewrite saved_text, JSON_parse_int_record.
  - apply load_try_saved_int.
  - unfold loads_ints. by rewrite load_try_saved_int.
Qed.
